(** * Glide: plugin registration, context extensions and command routing

    A shallow embedding of the Go packages

    - [pkg/plugin]        (registry.go)            as module [PluginPkg],
    - [pkg/plugin/sdk]    (extensions.go, errors.go) as module [Sdk],
    - [internal/shell]    (registry.go, plugin_aware.go) as module [Shell],
    - [internal/context]  (compatibility.go)       as module [Ctx],
    - the configuration schemas of [pkg/plugin/sdk] as module [SdkConfig],

    followed by the properties of these packages.

    Conventions of the embedding.
    - A Go [map[string]T] is a [gmap string T]; a method that mutates its
      receiver returns the new receiver next to its Go results.
    - A Go [error] is [option error], [None] being [nil]; an interface value
      that may be [nil] is an [option].
    - The mutexes of the registries are not modelled: every method is taken
      as one atomic step, which is what the locks provide.
    - [range] over a Go map visits every entry once, in an order the
      language leaves open.  A [RangeOrder] is one such choice of order;
      every function that ranges over a map takes the order as an argument. *)

From stdpp Require Import gmap strings list fin_maps.
From Stdlib Require Import ZArith.

(** ** Values shared by the packages *)

(** A Go [error], created by [fmt.Errorf] or [errors.New]: its message. *)
Inductive error : Type :=
  | Errorf (msg : string).

(** [err.Error()]. *)
Definition message (err : error) : string :=
  match err with Errorf msg => msg end.

(** Modelled from the spec: [ContainerStatus], declared in another file of
    [internal/context], is the status of one container in the "mapping of
    container name to status" of the legacy fields.  The compatibility
    layer only stores and counts these values. *)
Record ContainerStatus : Type := mkContainerStatus {
  Status : string;
}.

(** The dynamic values held in an [interface{}]: the nil interface, the four
    types that the compatibility layer asserts, the generic
    [map[string]interface{}], and integers standing for every other type.
    A nil slice or nil map stored in an interface is its empty value: the
    code takes [len] of them and reads them, and does nothing else. *)
#[warnings="-register-all"]
Inductive GoValue : Type :=
  | VNil
  | VBool (b : bool)
  | VString (s : string)
  | VStringSlice (l : list string)
  | VStatusMap (m : gmap string ContainerStatus)
  | VMap (m : gmap string GoValue)
  | VInt (n : Z).

(** One way to visit the entries of a map: a rearrangement of its entries. *)
Record RangeOrder : Type := mkRangeOrder {
  visit : ∀ V : Type, list (string * V) → list (string * V);
  visit_perm : ∀ (V : Type) (l : list (string * V)), visit V l ≡ₚ l;
}.

(** The entries of [m] in the order [o] visits them. *)
Definition range {V : Type} (o : RangeOrder) (m : gmap string V) : list (string * V) :=
  visit o V (map_to_list m).

Definition in_order : RangeOrder :=
  {| visit := λ V l, l; visit_perm := λ V l, reflexivity l |}.

Definition reversed : RangeOrder :=
  {| visit := λ V l, reverse l; visit_perm := λ V l, reverse_Permutation l |}.

(** ** Package [pkg/plugin]: the plugin registry *)
Module PluginPkg.

(** The part of [PluginMetadata] that the registry reads. *)
Record PluginMetadata : Type := mkMetadata {
  Aliases : list string;
}.

(** The [Plugin] interface, as far as the registry calls it: [Name()],
    [Version()], [Description()] and [Metadata()]. *)
Record Plugin : Type := mkPlugin {
  Name : string;
  Version : string;
  Description : string;
  Metadata : PluginMetadata;
}.

Record Registry : Type := mkRegistry {
  plugins : gmap string Plugin;
  aliases : gmap string string;
  config : gmap string GoValue;
}.

Definition NewRegistry : Registry :=
  {| plugins := ∅; aliases := ∅; config := ∅ |}.

(** The first loop of [Register]: the first alias that is taken decides
    the error. *)
Fixpoint check_aliases (r : Registry) (als : list string) : option error :=
  match als with
  | [] => None
  | alias :: rest =>
      if decide (is_Some (plugins r !! alias)) then
        Some (Errorf ("plugin alias " +:+ alias +:+ " conflicts with existing plugin"))
      else if decide (is_Some (aliases r !! alias)) then
        Some (Errorf ("plugin alias " +:+ alias +:+ " already registered"))
      else check_aliases r rest
  end.

(** The second loop of [Register]: [r.aliases[alias] = name] for each. *)
Definition register_aliases (name : string) (als : list string)
    (m : gmap string string) : gmap string string :=
  foldl (λ acc alias, <[alias := name]> acc) m als.

Definition Register (r : Registry) (p : option Plugin) : option error * Registry :=
  match p with
  | None => (Some (Errorf "cannot register nil plugin"), r)
  | Some p =>
      let name := Name p in
      if decide (name = EmptyString) then
        (Some (Errorf "plugin must have a name"), r)
      else if decide (is_Some (plugins r !! name)) then
        (Some (Errorf ("plugin " +:+ name +:+ " already registered")), r)
      else if decide (is_Some (aliases r !! name)) then
        (Some (Errorf ("plugin name " +:+ name +:+ " conflicts with existing alias")), r)
      else
        let meta := Metadata p in
        match check_aliases r (Aliases meta) with
        | Some err => (Some err, r)
        | None =>
            (None,
             {| plugins := <[name := p]> (plugins r);
                aliases := register_aliases name (Aliases meta) (aliases r);
                config := config r |})
        end
  end.

(** [Get] returns the plugin and the [bool] of the Go pair. *)
Definition Get (r : Registry) (name : string) : option Plugin * bool :=
  match plugins r !! name with
  | Some plugin => (Some plugin, true)
  | None =>
      match aliases r !! name with
      | Some canonicalName => (plugins r !! canonicalName, true)
      | None => (None, false)
      end
  end.

(** A run of [Register] calls, one per plugin, with the error of each. *)
Fixpoint RegisterEach (r : Registry) (ps : list Plugin) : list (option error) * Registry :=
  match ps with
  | [] => ([], r)
  | p :: rest =>
      let '(err, r1) := Register r (Some p) in
      let '(errs, r2) := RegisterEach r1 rest in
      (err :: errs, r2)
  end.

(** The conditions under which [Register] refuses a plugin. *)
Definition rejects (r : Registry) (p : option Plugin) : Prop :=
  match p with
  | None => True
  | Some p =>
      Name p = EmptyString
      ∨ is_Some (plugins r !! Name p)
      ∨ is_Some (aliases r !! Name p)
      ∨ ∃ alias, alias ∈ Aliases (Metadata p)
          ∧ (is_Some (plugins r !! alias) ∨ is_Some (aliases r !! alias))
  end.

(** The registry holds exactly the plugins [ps], each under its name and
    under each of its aliases. *)
Definition holds_exactly (r : Registry) (ps : list Plugin) : Prop :=
  (∀ n p, plugins r !! n = Some p → p ∈ ps ∧ Name p = n)
  ∧ (∀ p, p ∈ ps → plugins r !! Name p = Some p)
  ∧ (∀ a n, aliases r !! a = Some n →
       ∃ p, p ∈ ps ∧ Name p = n ∧ a ∈ Aliases (Metadata p))
  ∧ (∀ p a, p ∈ ps → a ∈ Aliases (Metadata p) →
       aliases r !! a = Some (Name p))
  ∧ (∀ p a q, p ∈ ps → a ∈ Aliases (Metadata p) →
       plugins r !! a = Some q → q = p).

(** [p] clashes with none of the plugins [registered]: its name is not
    empty and, with its aliases, differs from their names and aliases. *)
Definition fresh_for (registered : list Plugin) (p : Plugin) : Prop :=
  Name p ≠ EmptyString
  ∧ ∀ q, q ∈ registered →
      Name p ≠ Name q
      ∧ (Name p ∉ Aliases (Metadata q))
      ∧ ∀ alias, alias ∈ Aliases (Metadata p) →
          alias ≠ Name q ∧ (alias ∉ Aliases (Metadata q)).

(** The plugins [ps], registered in this order after [registered], have
    distinct names and aliases that do not overlap. *)
Fixpoint conflict_free (registered ps : list Plugin) : Prop :=
  match ps with
  | [] => True
  | p :: rest => fresh_for registered p ∧ conflict_free (registered ++ [p]) rest
  end.

(** [List]: the plugins are appended in the order the map is visited. *)
Definition List (o : RangeOrder) (r : Registry) : list Plugin :=
  foldl (λ acc entry, acc ++ [entry.2]) [] (range o (plugins r)).

Definition SetConfig (r : Registry) (cfg : gmap string GoValue) : Registry :=
  {| plugins := plugins r; aliases := aliases r; config := cfg |}.

(** [ResolveAlias] returns the Go pair [(canonical, ok)]. *)
Definition ResolveAlias (r : Registry) (alias : string) : string * bool :=
  match aliases r !! alias with
  | Some canonical => (canonical, true)
  | None => (EmptyString, false)
  end.

(** [GetAliases]; the nil slice of an unknown plugin is the empty list. *)
Definition GetAliases (r : Registry) (pluginName : string) : list string :=
  match plugins r !! pluginName with
  | Some plugin => Aliases (Metadata plugin)
  | None => []
  end.

Definition IsAlias (r : Registry) (name : string) : bool :=
  bool_decide (is_Some (aliases r !! name)).

(** The methods [Configure] and [Register] of the [Plugin] interface, which
    [LoadAll] calls.  They act on the state [W] outside the registry: the
    command tree handed to [Register] and whatever the plugins keep. *)
Record Hooks (W : Type) : Type := mkHooks {
  Configure : Plugin → gmap string GoValue → W → option error * W;
  RegisterCommands : Plugin → W → option error * W;
}.
Arguments Configure {W} _ _ _ _.
Arguments RegisterCommands {W} _ _ _.

(** [fmt.Errorf("failed to ... plugin %s: %w", name, err)]. *)
Definition wrap (what name : string) (err : error) : error :=
  Errorf (what +:+ name +:+ ": " +:+ message err).

(** The loop of [LoadAll] over the entries in visiting order. *)
Fixpoint load_loop {W : Type} (h : Hooks W) (cfg : gmap string GoValue)
    (entries : list (string * Plugin)) (w : W) : option error * W :=
  match entries with
  | [] => (None, w)
  | (name, plugin) :: rest =>
      match Configure h plugin cfg w with
      | (Some err, w1) => (Some (wrap "failed to configure plugin " name err), w1)
      | (None, w1) =>
          match RegisterCommands h plugin w1 with
          | (Some err, w2) => (Some (wrap "failed to register plugin " name err), w2)
          | (None, w2) => load_loop h cfg rest w2
          end
      end
  end.

Definition LoadAll {W : Type} (o : RangeOrder) (h : Hooks W) (r : Registry) (w : W)
    : option error * W :=
  load_loop h (config r) (range o (plugins r)) w.

(** [loaded h cfg entries w w']: starting in the state [w], each plugin of
    [entries] in turn was configured and then registered without error,
    every call starting in the state that the call before it left, and the
    last call left the state [w']. *)
Inductive loaded {W : Type} (h : Hooks W) (cfg : gmap string GoValue)
    : list (string * Plugin) → W → W → Prop :=
  | loaded_nil (w : W) : loaded h cfg [] w w
  | loaded_cons (name : string) (plugin : Plugin) (rest : list (string * Plugin))
      (w w1 w2 w' : W) :
      Configure h plugin cfg w = (None, w1) →
      RegisterCommands h plugin w1 = (None, w2) →
      loaded h cfg rest w2 w' →
      loaded h cfg ((name, plugin) :: rest) w w'.

End PluginPkg.

(** ** Package [pkg/plugin/sdk]: context extensions *)
Module Sdk.

(** [context.Context] of the Go library: passed on to [Detect], never
    inspected here. *)
Inductive GoContext : Type :=
  | Background.

(** The [ContextExtension] interface.  [Detect] and [Merge] return the
    Go pair [(interface{}, error)]. *)
Record ContextExtension : Type := mkExtension {
  Name : string;
  Detect : GoContext → string → GoValue * option error;
  Merge : GoValue → GoValue → GoValue * option error;
}.

Record ExtensionRegistry : Type := mkExtensionRegistry {
  extensions : gmap string ContextExtension;
}.

Definition NewExtensionRegistry : ExtensionRegistry :=
  {| extensions := ∅ |}.

Definition ErrInvalidExtensionName : error :=
  Errorf "extension name cannot be empty".

Definition Register (r : ExtensionRegistry) (ext : option ContextExtension)
    : option error * ExtensionRegistry :=
  match ext with
  | None => (None, r)
  | Some ext =>
      let name := Name ext in
      if decide (name = EmptyString) then (Some ErrInvalidExtensionName, r)
      else (None, {| extensions := <[name := ext]> (extensions r) |})
  end.

Definition Get (r : ExtensionRegistry) (name : string) : option ContextExtension * bool :=
  match extensions r !! name with
  | Some ext => (Some ext, true)
  | None => (None, false)
  end.

(** The body of the loop of [DetectAll], for the entry [(name, ext)]. *)
Definition detect_body (ctx : GoContext) (projectRoot : string)
    (results : gmap string GoValue) (entry : string * ContextExtension)
    : gmap string GoValue :=
  let '(name, ext) := entry in
  let '(data, err) := Detect ext ctx projectRoot in
  match err with
  | Some _ => results
  | None =>
      match data with
      | VNil => results
      | _ => <[name := data]> results
      end
  end.

Definition DetectAll (o : RangeOrder) (r : ExtensionRegistry) (ctx : GoContext)
    (projectRoot : string) : gmap string GoValue * option error :=
  (foldl (detect_body ctx projectRoot) ∅ (range o (extensions r)), None).

(** The body of the loop of [MergeExtensionData]: the new [result], or the
    error that makes the function return. *)
Definition merge_body (dataMap : gmap string GoValue)
    (result : gmap string GoValue) (ext : ContextExtension)
    : gmap string GoValue + error :=
  let name := Name ext in
  match result !! name with
  | Some existing =>
      match dataMap !! name with
      | Some newData =>
          match Merge ext existing newData with
          | (_, Some err) => inr err
          | (merged, None) => inl (<[name := merged]> result)
          end
      | None => inl result
      end
  | None =>
      match dataMap !! name with
      | Some data => inl (<[name := data]> result)
      | None => inl result
      end
  end.

Fixpoint merge_loop (dataMap : gmap string GoValue) (exts : list ContextExtension)
    (result : gmap string GoValue) : gmap string GoValue + error :=
  match exts with
  | [] => inl result
  | ext :: rest =>
      match merge_body dataMap result ext with
      | inl result' => merge_loop dataMap rest result'
      | inr err => inr err
      end
  end.

(** The Go pair [(map[string]interface{}, error)]; the map is [nil] when
    an error is returned. *)
Definition MergeExtensionData (exts : list ContextExtension)
    (dataMap : gmap string GoValue) : option (gmap string GoValue) * option error :=
  match merge_loop dataMap exts ∅ with
  | inl result => (Some result, None)
  | inr err => (None, Some err)
  end.

(** What one extension contributes to the result of [DetectAll]: its
    data, unless [Detect] failed or returned nil. *)
Definition contribution (ctx : GoContext) (projectRoot : string)
    (ext : ContextExtension) : option GoValue :=
  match Detect ext ctx projectRoot with
  | (_, Some err) => None
  | (data, None) => match data with VNil => None | _ => Some data end
  end.

(** [All]: the copy is filled in the order the map is visited. *)
Definition All (o : RangeOrder) (r : ExtensionRegistry) : gmap string ContextExtension :=
  foldl (λ result entry, <[entry.1 := entry.2]> result) ∅ (range o (extensions r)).

End Sdk.

(** ** Package [internal/shell]: executor providers and routing *)
Module Shell.

(** [Options], [Command], [Result] and the standard [Executor] are
    declared in other files of the package. *)

(** The execution options; the routing layer only hands them on. *)
Inductive Options : Type :=
  | mkOptions (settings : GoValue).

Inductive StdioMode : Type :=
  | ModeCapture
  | ModePassthrough.

(** Modelled from the spec: a shell invocation request is "program,
    arguments, environment, workingDirectory, stdio mode (inherit vs
    capture)". *)
Record Command : Type := mkCommand {
  Name : string;
  Args : list string;
  Env : gmap string string;
  WorkingDir : string;
  Mode : StdioMode;
}.

(** Modelled from the spec: [NewCommand], the constructor of a command
    whose output is captured. *)
Definition NewCommand (name : string) (args : list string) : Command :=
  {| Name := name; Args := args; Env := ∅; WorkingDir := EmptyString;
     Mode := ModeCapture |}.

(** Modelled from the spec: [NewPassthroughCommand], the constructor of a
    command that inherits the standard streams. *)
Definition NewPassthroughCommand (name : string) (args : list string) : Command :=
  {| Name := name; Args := args; Env := ∅; WorkingDir := EmptyString;
     Mode := ModePassthrough |}.

(** The fields of [Result] that [Run] and [RunCapture] read. *)
Record Result : Type := mkResult {
  ExitCode : Z;
  Stdout : string;
  Stderr : string;
  Error : option error;
}.

(** The Go pair of a [Result] pointer and an [error]. *)
Definition Execution : Type := option Result * option error.

(** The [CommandExecutor] interface. *)
Record CommandExecutor : Type := mkCommandExecutor {
  Execute : Command → Execution;
}.

(** The [ExecutorProvider] interface: [Name()] (here [ProviderName], to
    keep it apart from the name of a command), [CanHandle] and
    [CreateExecutor], which may return the nil interface. *)
Record ExecutorProvider : Type := mkProvider {
  ProviderName : string;
  CanHandle : Command → bool;
  CreateExecutor : Options → option CommandExecutor;
}.

Record ExecutorRegistry : Type := mkExecutorRegistry {
  providers : gmap string ExecutorProvider;
}.

Definition NewExecutorRegistry : ExecutorRegistry :=
  {| providers := ∅ |}.

(** Go's [%q] verb: the name between double quotes (escapes left out). *)
Definition quoted (s : string) : string :=
  String (Ascii.ascii_of_nat 34) (s +:+ String (Ascii.ascii_of_nat 34) EmptyString).

Definition Register (r : ExecutorRegistry) (provider : option ExecutorProvider)
    : option error * ExecutorRegistry :=
  match provider with
  | None => (None, r)
  | Some provider =>
      let name := ProviderName provider in
      if decide (name = EmptyString) then
        (Some (Errorf "executor provider name cannot be empty"), r)
      else if decide (is_Some (providers r !! name)) then
        (Some (Errorf ("executor provider " +:+ quoted name +:+ " already registered")), r)
      else (None, {| providers := <[name := provider]> (providers r) |})
  end.

Definition Get (r : ExecutorRegistry) (name : string) : option ExecutorProvider * bool :=
  match providers r !! name with
  | Some provider => (Some provider, true)
  | None => (None, false)
  end.

(** The loop of [FindProvider] over the entries in visiting order. *)
Fixpoint find_loop (entries : list (string * ExecutorProvider)) (cmd : Command)
    : option ExecutorProvider :=
  match entries with
  | [] => None
  | (_, provider) :: rest =>
      if CanHandle provider cmd then Some provider else find_loop rest cmd
  end.

Definition FindProvider (o : RangeOrder) (r : ExecutorRegistry) (cmd : Command)
    : option ExecutorProvider :=
  find_loop (range o (providers r)) cmd.

Definition Unregister (r : ExecutorRegistry) (name : string) : ExecutorRegistry :=
  {| providers := delete name (providers r) |}.

(** The standard executor: its options, and its [Execute] method, which
    runs the process and is given from outside. *)
Record Executor : Type := mkExecutor {
  options : Options;
  StdExecute : Command → Execution;
}.

Record PluginAwareExecutor : Type := mkPluginAwareExecutor {
  standardExecutor : Executor;
  registry : ExecutorRegistry;
}.

(** What a call comes to: it returns, or it panics (a method called on a
    nil interface, a field read through a nil pointer). *)
Inductive outcome (A : Type) : Type :=
  | Returns (a : A)
  | Panics.
Arguments Returns {A} a.
Arguments Panics {A}.

Definition PAExecute (o : RangeOrder) (e : PluginAwareExecutor) (cmd : Command)
    : outcome Execution :=
  match FindProvider o (registry e) cmd with
  | Some provider =>
      match CreateExecutor provider (options (standardExecutor e)) with
      | Some executor => Returns (Execute executor cmd)
      | None => Panics
      end
  | None => Returns (StdExecute (standardExecutor e) cmd)
  end.

Definition Run (o : RangeOrder) (e : PluginAwareExecutor) (name : string)
    (args : list string) : outcome (option error) :=
  let cmd := NewPassthroughCommand name args in
  match PAExecute o e cmd with
  | Panics => Panics
  | Returns (result, err) =>
      match err, result with
      | Some err, _ => Returns (Some err)
      | None, None => Panics
      | None, Some result =>
          if decide (is_Some (Error result)) then Returns (Error result)
          else if decide (ExitCode result ≠ 0%Z) then Returns (Error result)
          else Returns None
      end
  end.

Definition RunCapture (o : RangeOrder) (e : PluginAwareExecutor) (name : string)
    (args : list string) : outcome (string * option error) :=
  let cmd := NewCommand name args in
  match PAExecute o e cmd with
  | Panics => Panics
  | Returns (result, err) =>
      match err, result with
      | Some err, _ => Returns (EmptyString, Some err)
      | None, None => Panics
      | None, Some result =>
          if decide (is_Some (Error result)) then Returns (EmptyString, Error result)
          else if decide (ExitCode result ≠ 0%Z) then Returns (Stderr result, Error result)
          else Returns (Stdout result, None)
      end
  end.

(** [All]: the copy is filled in the order the map is visited. *)
Definition All (o : RangeOrder) (r : ExecutorRegistry) : gmap string ExecutorProvider :=
  foldl (λ result entry, <[entry.1 := entry.2]> result) ∅ (range o (providers r)).

Definition Clear (r : ExecutorRegistry) : ExecutorRegistry :=
  {| providers := ∅ |}.

Definition SetRegistry (e : PluginAwareExecutor) (r : ExecutorRegistry)
    : PluginAwareExecutor :=
  {| standardExecutor := standardExecutor e; registry := r |}.

Definition GetRegistry (e : PluginAwareExecutor) : ExecutorRegistry :=
  registry e.

(** What [ExecuteWithContext] needs beyond [Execute]: the type assertion of
    an executor to [ContextAwareExecutor], which gives its
    [ExecuteWithContext] method when the executor has one, and the
    [ExecuteWithContext] method of the standard executor. *)
Record ContextSupport : Type := mkContextSupport {
  asContextAware : CommandExecutor → option (Sdk.GoContext → Command → Execution);
  StdExecuteWithContext : Executor → Sdk.GoContext → Command → Execution;
}.

Definition ExecuteWithContext (o : RangeOrder) (s : ContextSupport)
    (e : PluginAwareExecutor) (ctx : Sdk.GoContext) (cmd : Command)
    : outcome Execution :=
  match FindProvider o (registry e) cmd with
  | Some provider =>
      match CreateExecutor provider (options (standardExecutor e)) with
      | Some executor =>
          match asContextAware s executor with
          | Some executeWithContext => Returns (executeWithContext ctx cmd)
          | None => Returns (Execute executor cmd)
          end
      | None => Panics
      end
  | None => Returns (StdExecuteWithContext s (standardExecutor e) ctx cmd)
  end.

End Shell.

(** ** Package [internal/context]: the compatibility layer *)
Module Ctx.

(** [ProjectContext] is declared in another file of the package; these
    are the fields that the compatibility layer and its tests use.
    [Extensions] may be the nil map, which the code tests for. *)
Record ProjectContext : Type := mkProjectContext {
  ProjectRoot : string;
  WorkingDir : string;
  DevelopmentMode : string;
  Location : string;
  Extensions : option (gmap string GoValue);
  ComposeFiles : list string;
  ComposeOverride : string;
  DockerRunning : bool;
  ContainersStatus : gmap string ContainerStatus;
  Error : option error;
}.

Definition set_Extensions (v : option (gmap string GoValue)) (c : ProjectContext) :=
  {| ProjectRoot := ProjectRoot c; WorkingDir := WorkingDir c;
     DevelopmentMode := DevelopmentMode c; Location := Location c;
     Extensions := v; ComposeFiles := ComposeFiles c;
     ComposeOverride := ComposeOverride c; DockerRunning := DockerRunning c;
     ContainersStatus := ContainersStatus c; Error := Error c |}.

Definition set_ComposeFiles (v : list string) (c : ProjectContext) :=
  {| ProjectRoot := ProjectRoot c; WorkingDir := WorkingDir c;
     DevelopmentMode := DevelopmentMode c; Location := Location c;
     Extensions := Extensions c; ComposeFiles := v;
     ComposeOverride := ComposeOverride c; DockerRunning := DockerRunning c;
     ContainersStatus := ContainersStatus c; Error := Error c |}.

Definition set_ComposeOverride (v : string) (c : ProjectContext) :=
  {| ProjectRoot := ProjectRoot c; WorkingDir := WorkingDir c;
     DevelopmentMode := DevelopmentMode c; Location := Location c;
     Extensions := Extensions c; ComposeFiles := ComposeFiles c;
     ComposeOverride := v; DockerRunning := DockerRunning c;
     ContainersStatus := ContainersStatus c; Error := Error c |}.

Definition set_DockerRunning (v : bool) (c : ProjectContext) :=
  {| ProjectRoot := ProjectRoot c; WorkingDir := WorkingDir c;
     DevelopmentMode := DevelopmentMode c; Location := Location c;
     Extensions := Extensions c; ComposeFiles := ComposeFiles c;
     ComposeOverride := ComposeOverride c; DockerRunning := v;
     ContainersStatus := ContainersStatus c; Error := Error c |}.

Definition set_ContainersStatus (v : gmap string ContainerStatus) (c : ProjectContext) :=
  {| ProjectRoot := ProjectRoot c; WorkingDir := WorkingDir c;
     DevelopmentMode := DevelopmentMode c; Location := Location c;
     Extensions := Extensions c; ComposeFiles := ComposeFiles c;
     ComposeOverride := ComposeOverride c; DockerRunning := DockerRunning c;
     ContainersStatus := v; Error := Error c |}.

(** The type assertions [x.(T)] on a map entry; a missing key reads as
    the nil interface, on which every assertion fails. *)
Definition as_map (v : option GoValue) : option (gmap string GoValue) :=
  match v with Some (VMap m) => Some m | _ => None end.

Definition as_string_slice (v : option GoValue) : option (list string) :=
  match v with Some (VStringSlice l) => Some l | _ => None end.

Definition as_string (v : option GoValue) : option string :=
  match v with Some (VString s) => Some s | _ => None end.

Definition as_bool (v : option GoValue) : option bool :=
  match v with Some (VBool b) => Some b | _ => None end.

Definition as_status_map (v : option GoValue) : option (gmap string ContainerStatus) :=
  match v with Some (VStatusMap m) => Some m | _ => None end.

(** [if x, ok := v.(T); ok { ctx.F = x }]. *)
Definition assign {A : Type} (v : option A) (set : A → ProjectContext → ProjectContext)
    (ctx : ProjectContext) : ProjectContext :=
  match v with Some x => set x ctx | None => ctx end.

Definition PopulateCompatibilityFields (ctx : ProjectContext) : ProjectContext :=
  match Extensions ctx with
  | None => ctx
  | Some exts =>
      match exts !! "docker" with
      | None => ctx
      | Some dockerData =>
          match as_map (Some dockerData) with
          | None => ctx
          | Some dockerCtx =>
              let ctx := assign (as_string_slice (dockerCtx !! "compose_files"))
                           set_ComposeFiles ctx in
              let ctx := assign (as_string (dockerCtx !! "compose_override"))
                           set_ComposeOverride ctx in
              let ctx := assign (as_bool (dockerCtx !! "docker_running"))
                           set_DockerRunning ctx in
              assign (as_status_map (dockerCtx !! "containers_status"))
                set_ContainersStatus ctx
          end
      end
  end.

Definition hasDockerData (ctx : ProjectContext) : bool :=
  bool_decide (0 < length (ComposeFiles ctx))
  || bool_decide (ComposeOverride ctx ≠ EmptyString)
  || DockerRunning ctx
  || bool_decide (0 < size (ContainersStatus ctx)).

(** The map that [UpdateExtensionsFromCompatibility] builds from the
    legacy fields. *)
Definition dockerCtx_of (ctx : ProjectContext) : gmap string GoValue :=
  let dockerCtx : gmap string GoValue := ∅ in
  let dockerCtx :=
    if bool_decide (0 < length (ComposeFiles ctx))
    then <["compose_files" := VStringSlice (ComposeFiles ctx)]> dockerCtx
    else dockerCtx in
  let dockerCtx :=
    if bool_decide (ComposeOverride ctx ≠ EmptyString)
    then <["compose_override" := VString (ComposeOverride ctx)]> dockerCtx
    else dockerCtx in
  let dockerCtx := <["docker_running" := VBool (DockerRunning ctx)]> dockerCtx in
  if bool_decide (0 < size (ContainersStatus ctx))
  then <["containers_status" := VStatusMap (ContainersStatus ctx)]> dockerCtx
  else dockerCtx.

Definition UpdateExtensionsFromCompatibility (ctx : ProjectContext) : ProjectContext :=
  let ctx :=
    match Extensions ctx with
    | None => set_Extensions (Some ∅) ctx
    | Some _ => ctx
    end in
  if negb (hasDockerData ctx) then ctx
  else
    set_Extensions
      (Some (<["docker" := VMap (dockerCtx_of ctx)]> (default ∅ (Extensions ctx))))
      ctx.

(** The keys of [extensions["docker"]] that the legacy fields track. *)
Definition tracked_keys : list string :=
  ["compose_files"; "compose_override"; "docker_running"; "containers_status"].

(** The value under [key] of [extensions["docker"]], when that entry is a
    [map[string]interface{}] holding the key. *)
Definition docker_value (ctx : ProjectContext) (key : string) : option GoValue :=
  exts ← Extensions ctx;
  dockerCtx ← as_map (exts !! "docker");
  dockerCtx !! key.

(** [check] holds of the value under [key], if there is one. *)
Definition typed_as (key : string) (check : option GoValue → bool)
    (dockerCtx : gmap string GoValue) : bool :=
  match dockerCtx !! key with
  | Some v => check (Some v)
  | None => true
  end.

(** A docker entry is well typed when each tracked key it holds has the
    type of its legacy field. *)
Definition well_typed (dockerCtx : gmap string GoValue) : bool :=
  typed_as "compose_files" (λ v, bool_decide (is_Some (as_string_slice v))) dockerCtx
  && typed_as "compose_override" (λ v, bool_decide (is_Some (as_string v))) dockerCtx
  && typed_as "docker_running" (λ v, bool_decide (is_Some (as_bool v))) dockerCtx
  && typed_as "containers_status" (λ v, bool_decide (is_Some (as_status_map v))) dockerCtx.

(** A context is well formed when [extensions["docker"]] is a well-typed
    [map[string]interface{}]. *)
Definition well_formed (ctx : ProjectContext) : bool :=
  match Extensions ctx with
  | Some exts =>
      match exts !! "docker" with
      | Some (VMap dockerCtx) => well_typed dockerCtx
      | _ => false
      end
  | None => false
  end.

(** The zero values of the legacy fields, as values of the docker entry. *)
Definition is_zero (v : GoValue) : bool :=
  match v with
  | VStringSlice l => bool_decide (length l = 0)
  | VString s => bool_decide (s = EmptyString)
  | VBool b => negb b
  | VStatusMap m => bool_decide (size m = 0)
  | _ => false
  end.

(** [key] carries data: it is present with a value that is not zero. *)
Definition carries_data (ctx : ProjectContext) (key : string) : bool :=
  match docker_value ctx key with
  | Some v => negb (is_zero v)
  | None => false
  end.

(** The legacy fields of a context that nothing has written yet. *)
Definition legacy_unset (ctx : ProjectContext) : bool :=
  bool_decide (length (ComposeFiles ctx) = 0)
  && bool_decide (ComposeOverride ctx = EmptyString)
  && negb (DockerRunning ctx)
  && bool_decide (size (ContainersStatus ctx) = 0).

(** The four conditional assignments of [PopulateCompatibilityFields]. *)
Definition populate_from (dockerCtx : gmap string GoValue) (ctx : ProjectContext)
    : ProjectContext :=
  assign (as_status_map (dockerCtx !! "containers_status")) set_ContainersStatus
    (assign (as_bool (dockerCtx !! "docker_running")) set_DockerRunning
       (assign (as_string (dockerCtx !! "compose_override")) set_ComposeOverride
          (assign (as_string_slice (dockerCtx !! "compose_files")) set_ComposeFiles
             ctx))).

(** [UpdateExtensionsFromCompatibility] in one step: the extension map it
    leaves, next to the untouched legacy fields. *)
Definition updated_extensions (ctx : ProjectContext) : gmap string GoValue :=
  if hasDockerData ctx
  then <["docker" := VMap (dockerCtx_of ctx)]> (default ∅ (Extensions ctx))
  else default ∅ (Extensions ctx).

End Ctx.

(** ** Package [pkg/plugin/sdk]: configuration schemas *)
Module SdkConfig.

(** A [float64].  The code makes one test on floats, [f == float64(int(f))],
    whose result the language leaves to the platform for values outside
    the range of [int]; the value carries the result of the test next to
    its bits. *)
Record Float64 : Type := mkFloat64 {
  bits : Z;
  whole : bool;
}.

(** The dynamic values of configuration data: the nil interface, the types
    that [validateType] asserts ([string], [bool], [int], [float64],
    [[]interface{}], [map[string]interface{}], which may be the nil map),
    and the values of every other Go type, given by the name of the
    type. *)
#[warnings="-register-all"]
Inductive ConfigValue : Type :=
  | CNil
  | CString (s : string)
  | CBool (b : bool)
  | CInt (n : Z)
  | CFloat (f : Float64)
  | CArray (l : list ConfigValue)
  | CObject (m : option (gmap string ConfigValue))
  | COther (goType : string).

(** [FieldSchema]; the fields [Name], [Type], [Description] and [Required]
    carry the prefix [Field] to keep them apart from those of
    [ConfigSchema] and from the sort [Type]. *)
#[warnings="-register-all"]
Inductive FieldSchema : Type := mkFieldSchema {
  FieldName : string;
  FieldType : string;
  FieldDescription : string;
  FieldRequired : bool;
  Default : ConfigValue;
  Validation : string;
  Nested : list FieldSchema;
}.

Record ConfigSchema : Type := mkConfigSchema {
  Name : string;
  Fields : list FieldSchema;
  Description : string;
  Required : bool;
}.

Record ValidationError : Type := mkValidationError {
  Field : string;
  Message : string;
}.

(** The method [Error] of [ValidationError]. *)
Definition ErrorString (e : ValidationError) : string :=
  Field e +:+ ": " +:+ Message e.

Definition validateType (expectedType : string) (value : ConfigValue) : bool :=
  match value with
  | CNil => true
  | _ =>
      if decide (expectedType = "string") then
        match value with CString _ => true | _ => false end
      else if decide (expectedType = "bool") then
        match value with CBool _ => true | _ => false end
      else if decide (expectedType = "int") then
        match value with
        | CInt _ => true
        | CFloat f => whole f
        | _ => false
        end
      else if decide (expectedType = "float") then
        match value with CFloat _ => true | _ => false end
      else if decide (expectedType = "array") then
        match value with CArray _ => true | _ => false end
      else if decide (expectedType = "object") then
        match value with CObject _ => true | _ => false end
      else true
  end.

(** [err.Field = field.Name + "." + err.Field], for each nested error. *)
Definition prefixed (name : string) (errors : list ValidationError)
    : list ValidationError :=
  (λ err, {| Field := name +:+ "." +:+ Field err; Message := Message err |})
    <$> errors.

(** The errors that the body of the loop of [ValidateConfig] appends for
    one field.  The nested call of [ValidateConfig] is the inner loop: its
    schema is not required, so the nil map gives no error. *)
Fixpoint validate_field (field : FieldSchema) (data : gmap string ConfigValue)
    {struct field} : list ValidationError :=
  match field with
  | mkFieldSchema name ty _ required _ _ nested =>
      match data !! name with
      | None =>
          if required
          then [{| Field := name; Message := "required field is missing" |}]
          else []
      | Some value =>
          (if validateType ty value then []
           else [{| Field := name; Message := "invalid type: expected " +:+ ty |}])
          ++ (if bool_decide (ty = "object") && bool_decide (0 < length nested) then
                match value with
                | CObject objValue =>
                    prefixed name
                      match objValue with
                      | None => []
                      | Some nestedData =>
                          (fix validate_fields (fields : list FieldSchema) :=
                             match fields with
                             | [] => []
                             | f :: rest =>
                                 validate_field f nestedData ++ validate_fields rest
                             end) nested
                      end
                | _ => []
                end
              else [])
      end
  end.

(** The loop of [ValidateConfig] over the fields of the schema. *)
Fixpoint validate_fields (fields : list FieldSchema) (data : gmap string ConfigValue)
    : list ValidationError :=
  match fields with
  | [] => []
  | field :: rest => validate_field field data ++ validate_fields rest data
  end.

(** [ValidateConfig]; [data] may be the nil map. *)
Definition ValidateConfig (schema : ConfigSchema)
    (data : option (gmap string ConfigValue)) : list ValidationError :=
  match data with
  | None =>
      if Required schema
      then [{| Field := Name schema;
               Message := "required configuration section is missing" |}]
      else []
  | Some data => validate_fields (Fields schema) data
  end.

(** The schema that [ValidateConfig] and [ApplyDefaults] build for the
    nested fields of an object: [&ConfigSchema{Name: field.Name, Fields:
    field.Nested}]. *)
Definition nestedSchema (field : FieldSchema) : ConfigSchema :=
  {| Name := FieldName field; Fields := Nested field;
     Description := EmptyString; Required := false |}.

(** The body of the loop of [ApplyDefaults] for one field.  The map is
    updated in place in Go; here the updated map is returned, which gives
    the contents of [data] after the call when no map is shared between
    two places of the data or between the data and the schema. *)
Fixpoint apply_field (field : FieldSchema) (data : gmap string ConfigValue)
    {struct field} : gmap string ConfigValue :=
  match field with
  | mkFieldSchema name ty _ _ dflt _ nested =>
      let data :=
        match data !! name, dflt with
        | Some _, _ => data
        | None, CNil => data
        | None, _ => <[name := dflt]> data
        end in
      if bool_decide (ty = "object") && bool_decide (0 < length nested) then
        match data !! name with
        | Some (CObject objValue) =>
            <[name :=
                CObject (Some
                  ((fix apply_fields (fields : list FieldSchema)
                        (nestedData : gmap string ConfigValue) :=
                      match fields with
                      | [] => nestedData
                      | f :: rest => apply_fields rest (apply_field f nestedData)
                      end) nested (default ∅ objValue)))]> data
        | _ => data
        end
      else data
  end.

(** [ApplyDefaults]; [data] may be the nil map, the result is not. *)
Definition ApplyDefaults (schema : ConfigSchema)
    (data : option (gmap string ConfigValue)) : gmap string ConfigValue :=
  foldl (λ data field, apply_field field data) (default ∅ data) (Fields schema).

(** The first step of the body of the loop of [ApplyDefaults]: the default
    is stored when the key is missing and the default is not nil. *)
Definition with_default (field : FieldSchema) (data : gmap string ConfigValue)
    : gmap string ConfigValue :=
  match data !! FieldName field, Default field with
  | Some _, _ => data
  | None, CNil => data
  | None, _ => <[FieldName field := Default field]> data
  end.

End SdkConfig.

(** ** Sample data

    Small registries and contexts on which the properties below are run. *)
Module Samples.

Definition docker_plugin : PluginPkg.Plugin :=
  PluginPkg.mkPlugin "docker" "1.0.0" "Docker and compose support"
    (PluginPkg.mkMetadata ["d"]).

Definition git_plugin : PluginPkg.Plugin :=
  PluginPkg.mkPlugin "git" "1.0.0" "Git worktree support"
    (PluginPkg.mkMetadata []).

(** A third plugin whose name is the alias of [docker_plugin]. *)
Definition d_plugin : PluginPkg.Plugin :=
  PluginPkg.mkPlugin "d" "0.1.0" "A plugin named like an alias"
    (PluginPkg.mkMetadata ["dd"]).

(** The registry after [docker_plugin] and [git_plugin] registered. *)
Definition two_plugins : PluginPkg.Registry :=
  (PluginPkg.RegisterEach PluginPkg.NewRegistry [docker_plugin; git_plugin]).2.

(** Executors that report exit code [code] and no error of their own. *)
Definition exits_with (code : Z) : Shell.Command → Shell.Execution :=
  λ _, (Some (Shell.mkResult code EmptyString "boom" None), None).

(** Two providers whose predicates overlap on the program ["docker"]. *)
Definition docker_provider : Shell.ExecutorProvider :=
  Shell.mkProvider "docker"
    (λ cmd, bool_decide (Shell.Name cmd = "docker"))
    (λ _, Some (Shell.mkCommandExecutor (exits_with 0))).

Definition compose_provider : Shell.ExecutorProvider :=
  Shell.mkProvider "compose"
    (λ cmd, bool_decide (Shell.Name cmd = "docker")
            || bool_decide (Shell.Name cmd = "docker-compose"))
    (λ _, Some (Shell.mkCommandExecutor (exits_with 0))).

(** A provider with the name of [docker_provider] and another predicate. *)
Definition docker_impostor : Shell.ExecutorProvider :=
  Shell.mkProvider "docker" (λ _, true)
    (λ _, Some (Shell.mkCommandExecutor (exits_with 0))).

Definition nameless_provider : Shell.ExecutorProvider :=
  Shell.mkProvider EmptyString (λ _, true) (λ _, None).

Definition two_providers : Shell.ExecutorRegistry :=
  Shell.mkExecutorRegistry
    (<["docker" := docker_provider]> (<["compose" := compose_provider]> ∅)).

(** A routing executor over an empty registry whose standard executor
    reports exit code 1 and no error. *)
Definition failing_executor : Shell.PluginAwareExecutor :=
  Shell.mkPluginAwareExecutor
    (Shell.mkExecutor (Shell.mkOptions VNil) (exits_with 1))
    Shell.NewExecutorRegistry.

(** The same through a provider: the provider's executor reports exit
    code 2 and no error. *)
Definition failing_provider : Shell.ExecutorProvider :=
  Shell.mkProvider "make"
    (λ cmd, bool_decide (Shell.Name cmd = "make"))
    (λ _, Some (Shell.mkCommandExecutor (exits_with 2))).

Definition routed_executor : Shell.PluginAwareExecutor :=
  Shell.mkPluginAwareExecutor
    (Shell.mkExecutor (Shell.mkOptions VNil) (exits_with 0))
    (Shell.mkExecutorRegistry (<["make" := failing_provider]> ∅)).

(** The data that the docker extension detects in a project with a
    compose file. *)
Definition compose_data : GoValue :=
  VMap (<["compose_files" := VStringSlice ["docker-compose.yml"]]> ∅).

(** Keys of the incoming map win over the keys of the existing one. *)
Definition merge_maps (existing new : GoValue) : GoValue * option error :=
  match existing, new with
  | VNil, _ => (new, None)
  | _, VNil => (existing, None)
  | VMap a, VMap b => (VMap (b ∪ a), None)
  | _, _ => (VNil, Some (Errorf "cannot merge extension data"))
  end.

Definition docker_extension : Sdk.ContextExtension :=
  Sdk.mkExtension "docker"
    (λ _ root, if decide (root = "/srv/app") then (compose_data, None)
               else (VNil, None))
    merge_maps.

(** An extension whose detection always fails. *)
Definition broken_extension : Sdk.ContextExtension :=
  Sdk.mkExtension "kubernetes"
    (λ _ _, (VNil, Some (Errorf "kubectl not found")))
    merge_maps.

(** An extension whose merge always fails. *)
Definition strict_extension : Sdk.ContextExtension :=
  Sdk.mkExtension "docker"
    (λ _ _, (VNil, None))
    (λ _ _, (VNil, Some (Errorf "merge refused"))).

Definition two_extensions : Sdk.ExtensionRegistry :=
  Sdk.mkExtensionRegistry
    (<["docker" := docker_extension]> (<["kubernetes" := broken_extension]> ∅)).

Definition docker_data : gmap string GoValue :=
  <["docker" := compose_data]> ∅.

(** A context fresh from detection: the docker entry holds the compose
    files only, and no legacy field is set. *)
Definition detected_ctx : Ctx.ProjectContext :=
  Ctx.mkProjectContext "/srv/app" "/srv/app" "single-repo" "project"
    (Some docker_data) [] EmptyString false ∅ None.

(** A docker entry with every tracked key, two of them at zero values,
    and a key that the legacy fields do not track. *)
Definition full_entry : gmap string GoValue :=
  <["compose_files" := VStringSlice ["docker-compose.yml"]]>
    (<["compose_override" := VString EmptyString]>
       (<["docker_running" := VBool true]>
          (<["containers_status" := VStatusMap ∅]>
             (<["network" := VString "bridge"]> ∅)))).

Definition full_ctx : Ctx.ProjectContext :=
  Ctx.mkProjectContext "/srv/app" "/srv/app" "single-repo" "project"
    (Some (<["docker" := VMap full_entry]> ∅)) [] EmptyString false ∅ None.

(** Hooks over a log of the calls made: every [Configure] succeeds, and
    [Register] fails for the plugins named in [failing]. *)
Definition logging_hooks (failing : list string) : PluginPkg.Hooks (list string) :=
  PluginPkg.mkHooks (list string)
    (λ p _ log, (None, log ++ ["configure " +:+ PluginPkg.Name p]))
    (λ p log,
       if decide (PluginPkg.Name p ∈ failing)
       then (Some (Errorf "command tree is read-only"),
             log ++ ["register " +:+ PluginPkg.Name p])
       else (None, log ++ ["register " +:+ PluginPkg.Name p])).

(** A configuration schema: a string with a default, a required integer,
    and an object with a required string and a boolean with a default. *)
Definition build_fields : list SdkConfig.FieldSchema :=
  [ SdkConfig.mkFieldSchema "target" "string" "build target" true
      SdkConfig.CNil EmptyString [];
    SdkConfig.mkFieldSchema "cache" "bool" "use the build cache" false
      (SdkConfig.CBool true) EmptyString [] ].

Definition docker_schema : SdkConfig.ConfigSchema :=
  SdkConfig.mkConfigSchema "docker"
    [ SdkConfig.mkFieldSchema "compose_file" "string" "compose file" false
        (SdkConfig.CString "docker-compose.yml") EmptyString [];
      SdkConfig.mkFieldSchema "port" "int" "published port" true
        SdkConfig.CNil EmptyString [];
      SdkConfig.mkFieldSchema "build" "object" "build settings" false
        SdkConfig.CNil EmptyString build_fields ]
    "Docker plugin settings" true.

(** Configuration data with a port of the wrong type and a build section
    without target. *)
Definition docker_config : gmap string SdkConfig.ConfigValue :=
  <["port" := SdkConfig.CString "8080"]>
    (<["build" := SdkConfig.CObject (Some ∅)]> ∅).

End Samples.

(** * Properties *)

(** ** Ranging over a map *)
Section ranging.

(** The entries that a [range] visits are the entries of the map. *)
Lemma elem_of_range {V : Type} (o : RangeOrder) (m : gmap string V) k v :
  (k, v) ∈ range o m ↔ m !! k = Some v.
Proof.
  unfold range. rewrite (visit_perm o V (map_to_list m)).
  apply elem_of_map_to_list.
Qed.

Lemma NoDup_range_keys {V : Type} (o : RangeOrder) (m : gmap string V) :
  NoDup (range o m).*1.
Proof.
  unfold range. rewrite (visit_perm o V (map_to_list m)).
  apply NoDup_fst_map_to_list.
Qed.

End ranging.

(** ** The plugin registry *)
Section plugin_registry.
Import PluginPkg.
Implicit Types (r : Registry) (p q : Plugin) (ps : list Plugin).

Lemma check_aliases_None r als :
  check_aliases r als = None
  ↔ ∀ alias, alias ∈ als → plugins r !! alias = None ∧ aliases r !! alias = None.
Proof.
  induction als as [|a als IH]; simpl.
  - split; [intros _ alias Hin; inversion Hin | done].
  - destruct (decide (is_Some (plugins r !! a))) as [Hp|Hp].
    { split; [done|]. intros H. destruct (H a) as [Hn _]; [left|].
      rewrite Hn in Hp. by destruct Hp. }
    destruct (decide (is_Some (aliases r !! a))) as [Ha|Ha].
    { split; [done|]. intros H. destruct (H a) as [_ Hn]; [left|].
      rewrite Hn in Ha. by destruct Ha. }
    rewrite IH. apply eq_None_not_Some in Hp, Ha. split.
    + intros H alias Hin. apply elem_of_cons in Hin as [->|Hin]; auto.
    + intros H alias Hin. apply H. by right.
Qed.

Lemma check_aliases_Some r als :
  is_Some (check_aliases r als)
  ↔ ∃ alias, alias ∈ als
      ∧ (is_Some (plugins r !! alias) ∨ is_Some (aliases r !! alias)).
Proof.
  induction als as [|a als IH]; simpl.
  - split; [intros [? ?]; done | intros (alias & Hin & _); inversion Hin].
  - destruct (decide (is_Some (plugins r !! a))) as [Hp|Hp].
    { split; [|by eauto]. intros _. exists a. split; [left | by left]. }
    destruct (decide (is_Some (aliases r !! a))) as [Ha|Ha].
    { split; [|by eauto]. intros _. exists a. split; [left | by right]. }
    rewrite IH. split.
    + intros (alias & Hin & H). exists alias. split; [by right | done].
    + intros (alias & Hin & H). apply elem_of_cons in Hin as [->|Hin].
      * destruct H; contradiction.
      * eauto.
Qed.

Lemma lookup_register_aliases name als (m : gmap string string) k :
  register_aliases name als m !! k
  = if decide (k ∈ als) then Some name else m !! k.
Proof.
  unfold register_aliases. revert m.
  induction als as [|a als IH]; intros m; simpl.
  - destruct (decide (k ∈ [])) as [Hin|]; [inversion Hin | done].
  - rewrite IH. destruct (decide (k ∈ als)) as [Hin|Hnin].
    + rewrite decide_True; [done | by right].
    + destruct (decide (a = k)) as [->|Hne].
      * rewrite lookup_insert_eq. rewrite decide_True; [done | left].
      * rewrite lookup_insert_ne by done.
        rewrite decide_False; [done|].
        intros Hin. apply elem_of_cons in Hin as [->|]; done.
Qed.

(** What a successful [Register] has checked, and the registry it
    leaves. *)
Lemma Register_success r p r' :
  Register r (Some p) = (None, r') →
  Name p ≠ EmptyString
  ∧ plugins r !! Name p = None
  ∧ aliases r !! Name p = None
  ∧ (∀ alias, alias ∈ Aliases (Metadata p) →
       plugins r !! alias = None ∧ aliases r !! alias = None)
  ∧ plugins r' = <[Name p := p]> (plugins r)
  ∧ (∀ k, aliases r' !! k
          = if decide (k ∈ Aliases (Metadata p)) then Some (Name p)
            else aliases r !! k).
Proof.
  unfold Register.
  destruct (decide (Name p = EmptyString)); [done|].
  destruct (decide (is_Some (plugins r !! Name p))) as [|Hp]; [done|].
  destruct (decide (is_Some (aliases r !! Name p))) as [|Ha]; [done|].
  destruct (check_aliases r (Aliases (Metadata p))) eqn:Hc; [done|].
  intros [= <-]. simpl. apply eq_None_not_Some in Hp, Ha.
  repeat split; try done.
  - by apply (check_aliases_None r (Aliases (Metadata p))).
  - by apply (check_aliases_None r (Aliases (Metadata p))).
  - intros k. apply lookup_register_aliases.
Qed.

Lemma Register_rejects r (p : option Plugin) :
  rejects r p ↔ is_Some (Register r p).1.
Proof.
  destruct p as [p|]; simpl; [|split; [eauto | done]].
  destruct (decide (Name p = EmptyString)) as [He|He]; simpl;
    [split; [eauto | tauto]|].
  destruct (decide (is_Some (plugins r !! Name p))) as [Hp|Hp]; simpl;
    [split; [eauto | tauto]|].
  destruct (decide (is_Some (aliases r !! Name p))) as [Ha|Ha]; simpl;
    [split; [eauto | tauto]|].
  pose proof (check_aliases_Some r (Aliases (Metadata p))) as Hc.
  destruct (check_aliases r (Aliases (Metadata p))) eqn:Hchk; simpl.
  - split; [eauto|]. intros _. do 3 right. apply Hc. eauto.
  - split; [|intros [? ?]; done].
    intros [?|[?|[?|H]]]; try contradiction. by apply Hc in H.
Qed.

Lemma Register_failure_unchanged r (p : option Plugin) :
  is_Some (Register r p).1 → (Register r p).2 = r.
Proof.
  destruct p as [p|]; simpl; [|done].
  destruct (decide (Name p = EmptyString)); simpl; [done|].
  destruct (decide (is_Some (plugins r !! Name p))); simpl; [done|].
  destruct (decide (is_Some (aliases r !! Name p))); simpl; [done|].
  destruct (check_aliases r (Aliases (Metadata p))); simpl; [done|].
  intros [? ?]; done.
Qed.

(** *** Retrieval after a run of registrations *)

Lemma holds_exactly_new : holds_exactly NewRegistry [].
Proof.
  unfold holds_exactly. split_and!; simpl.
  - intros n p Hl. by rewrite lookup_empty in Hl.
  - intros p Hin. inversion Hin.
  - intros a n Hl. by rewrite lookup_empty in Hl.
  - intros p a Hin. inversion Hin.
  - intros p a q Hin. inversion Hin.
Qed.

Lemma holds_exactly_Register r ps p r' :
  holds_exactly r ps →
  Register r (Some p) = (None, r') →
  holds_exactly r' (ps ++ [p]).
Proof.
  intros (I1 & I2 & I3 & I4 & I5) Hreg.
  apply Register_success in Hreg as (_ & Hpn & Han & Hal & Hpl & Hall).
  unfold holds_exactly. split_and!.
  - intros n q. rewrite Hpl. destruct (decide (Name p = n)) as [<-|Hne].
    + rewrite lookup_insert_eq. intros [= <-].
      split; [|done]. apply elem_of_app. right. left.
    + rewrite lookup_insert_ne by done. intros H.
      destruct (I1 n q H) as [Hin Hn].
      split; [|done]. apply elem_of_app. by left.
  - intros q Hq. rewrite Hpl.
    apply elem_of_app in Hq as [Hq|Hq].
    + rewrite lookup_insert_ne; [by apply I2|].
      intros Heq. apply I2 in Hq. rewrite <- Heq, Hpn in Hq. done.
    + apply list_elem_of_singleton in Hq as ->. apply lookup_insert_eq.
  - intros a n Ha. rewrite Hall in Ha.
    destruct (decide (a ∈ Aliases (Metadata p))) as [Hin|Hnin].
    + injection Ha as <-. exists p. split; [|done].
      apply elem_of_app. right. left.
    + destruct (I3 a n Ha) as (q & Hq & Hn & Hqa).
      exists q. split; [|done]. apply elem_of_app. by left.
  - intros q a Hq Ha. rewrite Hall.
    apply elem_of_app in Hq as [Hq|Hq].
    + pose proof (I4 q a Hq Ha) as Hold.
      destruct (decide (a ∈ Aliases (Metadata p))) as [Hin|Hnin]; [|done].
      destruct (Hal a Hin) as [_ Hnone]. congruence.
    + apply list_elem_of_singleton in Hq as ->. by rewrite decide_True.
  - intros q0 a q Hq0 Ha Hlook. rewrite Hpl in Hlook.
    destruct (decide (Name p = a)) as [<-|Hne].
    + rewrite lookup_insert_eq in Hlook. injection Hlook as <-.
      apply elem_of_app in Hq0 as [Hq0|Hq0].
      * pose proof (I4 q0 (Name p) Hq0 Ha). congruence.
      * by apply list_elem_of_singleton in Hq0 as ->.
    + rewrite lookup_insert_ne in Hlook by done.
      apply elem_of_app in Hq0 as [Hq0|Hq0].
      * by apply (I5 q0 a).
      * apply list_elem_of_singleton in Hq0 as ->.
        destruct (Hal a Ha) as [Hnone _]. congruence.
Qed.

Lemma holds_exactly_RegisterEach ps : ∀ r registered errs r',
  holds_exactly r registered →
  RegisterEach r ps = (errs, r') →
  Forall (λ err, err = None) errs →
  holds_exactly r' (registered ++ ps).
Proof.
  induction ps as [|p ps IH]; intros r registered errs r' Hinv Hrun Hok.
  - simpl in Hrun. injection Hrun as <- <-. by rewrite app_nil_r.
  - cbn [RegisterEach] in Hrun.
    destruct (Register r (Some p)) as [err r1] eqn:Hreg.
    destruct (RegisterEach r1 ps) as [errs' r2] eqn:Hrest.
    injection Hrun as <- <-.
    apply Forall_cons in Hok as [-> Hok].
    replace (registered ++ p :: ps) with ((registered ++ [p]) ++ ps)
      by (by rewrite <- app_assoc).
    apply (IH r1 _ errs'); [|done|done].
    by apply (holds_exactly_Register r).
Qed.

Lemma holds_exactly_Get r ps :
  holds_exactly r ps →
  (∀ p, p ∈ ps →
     Get r (Name p) = (Some p, true)
     ∧ ∀ alias, alias ∈ Aliases (Metadata p) → Get r alias = (Some p, true))
  ∧ (∀ s, (∀ p, p ∈ ps → s ≠ Name p ∧ s ∉ Aliases (Metadata p)) →
       Get r s = (None, false)).
Proof.
  intros (I1 & I2 & I3 & I4 & I5). split.
  - intros p Hp. unfold Get. split.
    + by rewrite (I2 p Hp).
    + intros alias Ha.
      destruct (plugins r !! alias) as [q|] eqn:Hq.
      * by rewrite (I5 p alias q Hp Ha Hq).
      * by rewrite (I4 p alias Hp Ha), (I2 p Hp).
  - intros s Hs. unfold Get.
    destruct (plugins r !! s) as [q|] eqn:Hq.
    { destruct (I1 s q Hq) as [Hin Hn]. destruct (Hs q Hin) as [Hne _]. done. }
    destruct (aliases r !! s) as [n|] eqn:Hn; [|done].
    destruct (I3 s n Hn) as (q & Hin & _ & Ha).
    destruct (Hs q Hin) as [_ Hnin]. done.
Qed.

(** Plugins with distinct names and aliases that do not overlap register
    without error, one after the other. *)
Lemma Register_fresh r registered p :
  holds_exactly r registered →
  fresh_for registered p →
  ∃ r', Register r (Some p) = (None, r').
Proof.
  intros (I1 & _ & I3 & _ & _) [Hname Hfresh].
  assert (¬ rejects r (Some p)) as Hnot.
  { simpl. intros [?|[[q Hq]|[[n Hn]|(alias & Ha & [[q Hq]|[n Hn]])]]].
    - done.
    - destruct (I1 _ _ Hq) as [Hin Heq].
      destruct (Hfresh q Hin) as (Hne & _). by rewrite Heq in Hne.
    - destruct (I3 _ _ Hn) as (q & Hin & _ & Hal).
      destruct (Hfresh q Hin) as (_ & Hnin & _). done.
    - destruct (I1 _ _ Hq) as [Hin Heq].
      destruct (Hfresh q Hin) as (_ & _ & Hal).
      destruct (Hal alias Ha) as [Hne _]. by rewrite Heq in Hne.
    - destruct (I3 _ _ Hn) as (q & Hin & _ & Hqa).
      destruct (Hfresh q Hin) as (_ & _ & Hal).
      destruct (Hal alias Ha) as [_ Hnin]. done. }
  rewrite Register_rejects in Hnot.
  destruct (Register r (Some p)) as [[err|] r'] eqn:Hreg.
  - exfalso. apply Hnot. simpl. eauto.
  - by exists r'.
Qed.

Lemma RegisterEach_conflict_free ps : ∀ r registered,
  holds_exactly r registered →
  conflict_free registered ps →
  ∃ r', RegisterEach r ps = (replicate (length ps) None, r').
Proof.
  induction ps as [|p ps IH]; intros r registered Hinv Hfree.
  - by exists r.
  - destruct Hfree as [Hfresh Hfree]. cbn [RegisterEach].
    destruct (Register_fresh r registered p Hinv Hfresh) as [r1 Hreg].
    rewrite Hreg.
    destruct (IH r1 (registered ++ [p])) as [r2 Hrest]; [|done|].
    { by apply (holds_exactly_Register r). }
    rewrite Hrest. by exists r2.
Qed.

(** C1.  Registration in the plugin registry is all-or-nothing: a
    [Register] call that returns an error, whatever the registry and the
    plugin, leaves the registry (plugin map and alias map) as it was, and
    it fails for one of the listed causes: nil plugin, empty name, name
    already registered, name equal to an existing alias, or an alias equal
    to an existing name or alias.  Conversely each of these causes makes
    the call fail with the registry untouched. *)
Theorem Register_all_or_nothing r (p : option Plugin) :
  (∀ err r', Register r p = (Some err, r') → r' = r ∧ rejects r p)
  ∧ (rejects r p → ∃ err, Register r p = (Some err, r)).
Proof.
  split.
  - intros err r' Hreg.
    assert (is_Some (Register r p).1) as Hfail by (rewrite Hreg; simpl; eauto).
    split.
    + rewrite <- (Register_failure_unchanged r p Hfail). by rewrite Hreg.
    + by apply Register_rejects.
  - intros Hrej. apply Register_rejects in Hrej as Hfail.
    pose proof (Register_failure_unchanged r p Hfail) as Hsame.
    destruct (Register r p) as [e r']. simpl in *. subst r'.
    destruct Hfail as [err ->]. by exists err.
Qed.

Lemma Register_all_or_nothing_witness :
  (Register Samples.two_plugins (Some Samples.d_plugin)).2 = Samples.two_plugins
  ∧ ∃ err, Register Samples.two_plugins (Some Samples.d_plugin)
           = (Some err, Samples.two_plugins).
Proof.
  destruct (Register_all_or_nothing Samples.two_plugins (Some Samples.d_plugin))
    as [Hfail Hrej].
  split.
  - apply (Hfail (Errorf "plugin name d conflicts with existing alias")).
    vm_compute. reflexivity.
  - apply Hrej. right. right. left. vm_compute. eexists. reflexivity.
Defined.

(** C7.  After a run of registrations on a new registry that all
    succeeded (so the names are pairwise distinct and the aliases do not
    overlap), [Get] returns every registered plugin for its primary name
    and for each of its aliases, and returns the not-found pair for every
    other string. *)
Theorem Get_after_registrations ps errs r :
  RegisterEach NewRegistry ps = (errs, r) →
  Forall (λ err, err = None) errs →
  (∀ p, p ∈ ps →
     Get r (Name p) = (Some p, true)
     ∧ ∀ alias, alias ∈ Aliases (Metadata p) → Get r alias = (Some p, true))
  ∧ (∀ s, (∀ p, p ∈ ps → s ≠ Name p ∧ s ∉ Aliases (Metadata p)) →
       Get r s = (None, false)).
Proof.
  intros Hrun Hok. apply holds_exactly_Get.
  change ps with ([] ++ ps).
  by apply (holds_exactly_RegisterEach ps NewRegistry [] errs r holds_exactly_new).
Qed.

Lemma Get_after_registrations_witness :
  Get Samples.two_plugins "docker" = (Some Samples.docker_plugin, true)
  ∧ Get Samples.two_plugins "d" = (Some Samples.docker_plugin, true)
  ∧ Get Samples.two_plugins "compose" = (None, false).
Proof.
  assert (RegisterEach NewRegistry [Samples.docker_plugin; Samples.git_plugin]
          = ([None; None], Samples.two_plugins)) as Hrun
    by (vm_compute; reflexivity).
  destruct (Get_after_registrations _ _ _ Hrun) as [Hget Hmiss].
  { repeat constructor. }
  destruct (Hget Samples.docker_plugin) as [Hname Halias]; [left|].
  split_and!.
  - exact Hname.
  - apply Halias. simpl. left.
  - apply Hmiss. intros p Hp.
    apply elem_of_cons in Hp as [->|Hp];
      [|apply list_elem_of_singleton in Hp as ->]; simpl.
    + split; [done|]. by intros ?%list_elem_of_singleton.
    + split; [done|]. intros Hin. inversion Hin.
Defined.

End plugin_registry.

(** ** The executor provider registry and the routing executor *)
Section executor_registry.
Import Shell.
Implicit Types (r : ExecutorRegistry) (o : RangeOrder) (cmd : Command).
Implicit Types (provider : ExecutorProvider) (e : PluginAwareExecutor).

Lemma find_loop_None entries cmd :
  find_loop entries cmd = None
  ↔ ∀ name provider, (name, provider) ∈ entries → CanHandle provider cmd = false.
Proof.
  induction entries as [|[n p] entries IH]; simpl.
  - split; [intros _ name provider Hin; inversion Hin | done].
  - destruct (CanHandle p cmd) eqn:Hp.
    + split; [done|]. intros H. rewrite (H n p) in Hp; [done | left].
    + rewrite IH. split.
      * intros H name provider Hin.
        apply elem_of_cons in Hin as [[= -> ->]|Hin]; eauto.
      * intros H name provider Hin. apply (H name). by right.
Qed.

Lemma find_loop_Some entries cmd provider :
  find_loop entries cmd = Some provider →
  (∃ name, (name, provider) ∈ entries) ∧ CanHandle provider cmd = true.
Proof.
  induction entries as [|[n p] entries IH]; simpl; [done|].
  destruct (CanHandle p cmd) eqn:Hp.
  - intros [= <-]. split; [|done]. exists n. left.
  - intros H. destruct (IH H) as [[name Hin] Hcan].
    split; [|done]. exists name. by right.
Qed.

(** C8.  Whatever the order in which the providers are visited,
    [FindProvider] returns nil exactly when no registered provider's
    [CanHandle] holds of the command, and otherwise it returns a provider
    that is registered and whose [CanHandle] holds of the command. *)
Theorem FindProvider_correct o r cmd :
  (FindProvider o r cmd = None
   ↔ ∀ name provider, providers r !! name = Some provider →
       CanHandle provider cmd = false)
  ∧ (∀ provider, FindProvider o r cmd = Some provider →
       (∃ name, providers r !! name = Some provider)
       ∧ CanHandle provider cmd = true)
  ∧ ((∃ name provider, providers r !! name = Some provider
                       ∧ CanHandle provider cmd = true) →
     ∃ provider, FindProvider o r cmd = Some provider).
Proof.
  unfold FindProvider.
  assert (find_loop (range o (providers r)) cmd = None
          ↔ ∀ name provider, providers r !! name = Some provider →
              CanHandle provider cmd = false) as Hnone.
  { rewrite find_loop_None. split.
    - intros H name provider Hl. apply (H name). by apply elem_of_range.
    - intros H name provider Hin. apply (H name). by apply elem_of_range in Hin. }
  split_and!.
  - exact Hnone.
  - intros provider Hfind.
    destruct (find_loop_Some _ _ _ Hfind) as [[name Hin] Hcan].
    split; [|done]. exists name. by apply elem_of_range in Hin.
  - intros (name & provider & Hl & Hcan).
    destruct (find_loop (range o (providers r)) cmd) as [found|] eqn:Hfind;
      [by exists found|].
    rewrite (proj1 Hnone eq_refl name provider Hl) in Hcan. done.
Qed.

Lemma FindProvider_correct_witness :
  ∃ provider,
    FindProvider reversed Samples.two_providers (NewCommand "docker" []) = Some provider
    ∧ CanHandle provider (NewCommand "docker" []) = true.
Proof.
  destruct (FindProvider_correct reversed Samples.two_providers (NewCommand "docker" []))
    as (_ & Hsome & Hex).
  destruct Hex as [provider Hfind].
  { exists "docker", Samples.docker_provider. split; vm_compute; reflexivity. }
  exists provider. split; [done|]. by apply Hsome.
Defined.

(** C9.  [Register] on the executor registry keeps provider identity
    exclusive: a provider with the empty name is refused with an error,
    and a provider whose name is taken is refused with an error while the
    provider registered before stays under that name; in both cases the
    provider map is the one before the call. *)
Theorem Register_exclusive r provider :
  (ProviderName provider = EmptyString →
     ∃ err, Register r (Some provider) = (Some err, r))
  ∧ (∀ previous, providers r !! ProviderName provider = Some previous →
       ∃ err r', Register r (Some provider) = (Some err, r')
                 ∧ providers r' = providers r
                 ∧ providers r' !! ProviderName provider = Some previous).
Proof.
  unfold Register. split.
  - intros Hname. rewrite decide_True by done. eauto.
  - intros previous Hprev.
    destruct (decide (ProviderName provider = EmptyString)); [by eauto 6|].
    rewrite decide_True by (by rewrite Hprev; eauto). eauto 6.
Qed.

Lemma Register_exclusive_witness :
  (∃ err, Register Samples.two_providers (Some Samples.nameless_provider)
          = (Some err, Samples.two_providers))
  ∧ (∃ err r', Register Samples.two_providers (Some Samples.docker_impostor)
               = (Some err, r')
               ∧ providers r' = providers Samples.two_providers
               ∧ providers r' !! "docker" = Some Samples.docker_provider).
Proof.
  split.
  - apply (proj1 (Register_exclusive Samples.two_providers Samples.nameless_provider)).
    reflexivity.
  - apply (proj2 (Register_exclusive Samples.two_providers Samples.docker_impostor)
             Samples.docker_provider).
    vm_compute. reflexivity.
Defined.

(** *** The routing executor *)

(** An error returned by the executor that ran the command is returned as
    it is by [Run] and by [RunCapture]. *)
Lemma Run_passes_error o e name args result err :
  PAExecute o e (NewPassthroughCommand name args) = Returns (result, Some err) →
  Run o e name args = Returns (Some err).
Proof. unfold Run. by intros ->. Qed.

Lemma RunCapture_passes_error o e name args result err :
  PAExecute o e (NewCommand name args) = Returns (result, Some err) →
  RunCapture o e name args = Returns (EmptyString, Some err).
Proof. unfold RunCapture. by intros ->. Qed.

(** The error carried by the result is returned as it is, too. *)
Lemma Run_passes_result_error o e name args result err :
  PAExecute o e (NewPassthroughCommand name args) = Returns (Some result, None) →
  Error result = Some err →
  Run o e name args = Returns (Some err).
Proof.
  unfold Run. intros -> Herr.
  rewrite decide_True by (rewrite Herr; eauto). by rewrite Herr.
Qed.

(** A result with a non-zero exit code and no error of its own makes
    [Run] return [result.Error], which is nil on that path. *)
Lemma Run_nonzero_exit_nil o e name args result :
  PAExecute o e (NewPassthroughCommand name args) = Returns (Some result, None) →
  Error result = None →
  ExitCode result ≠ 0%Z →
  Run o e name args = Returns None.
Proof.
  unfold Run. intros -> Herr Hcode.
  rewrite decide_False by (rewrite Herr; by intros [? ?]).
  rewrite decide_True by done. by rewrite Herr.
Qed.

(** C4 (the code departs from it).  The claim asks that [Run] return a
    non-nil error whenever the execution produces a result with a
    non-zero exit code.  Here the command runs, through the standard
    executor and through a provider's executor, and produces a result
    with exit code 1 (resp. 2) and no error; [Run] returns nil, and
    [RunCapture] returns the standard error text with a nil error. *)
Theorem Run_swallows_nonzero_exit :
  PAExecute in_order Samples.failing_executor (NewPassthroughCommand "false" [])
    = Returns (Some (mkResult 1 EmptyString "boom" None), None)
  ∧ Run in_order Samples.failing_executor "false" [] = Returns None
  ∧ Run in_order Samples.routed_executor "make" ["test"] = Returns None
  ∧ RunCapture in_order Samples.failing_executor "false" [] = Returns ("boom", None).
Proof. split_and!; vm_compute; reflexivity. Qed.

End executor_registry.

(** ** The context extension registry *)
Section extension_registry.
Import Sdk.
Implicit Types (r : ExtensionRegistry) (o : RangeOrder) (ext : ContextExtension).
Implicit Types (results dataMap : gmap string GoValue).

Variables (ctx : GoContext) (projectRoot : string).

Lemma detect_body_lookup results name ext k :
  detect_body ctx projectRoot results (name, ext) !! k
  = if decide (name = k) then
      match contribution ctx projectRoot ext with
      | Some data => Some data
      | None => results !! k
      end
    else results !! k.
Proof.
  unfold detect_body, contribution.
  destruct (Detect ext ctx projectRoot) as [data [err|]].
  { by destruct (decide (name = k)). }
  destruct (decide (name = k)) as [->|Hne].
  - destruct data; by rewrite ?lookup_insert_eq.
  - destruct data; by rewrite ?lookup_insert_ne.
Qed.

(** Entries under other keys leave the result under [k] alone. *)
Lemma detect_loop_other entries : ∀ results k,
  k ∉ entries.*1 →
  foldl (detect_body ctx projectRoot) results entries !! k = results !! k.
Proof.
  induction entries as [|[n e] entries IH]; intros results k Hk;
    cbn [foldl]; [done|].
  rewrite fmap_cons in Hk. apply not_elem_of_cons in Hk as [Hne Hk].
  rewrite IH by done. rewrite detect_body_lookup.
  rewrite decide_False; [done|]. intros Heq. by apply Hne.
Qed.

Lemma detect_loop_lookup entries : ∀ results name ext,
  NoDup entries.*1 →
  (name, ext) ∈ entries →
  foldl (detect_body ctx projectRoot) results entries !! name
  = match contribution ctx projectRoot ext with
    | Some data => Some data
    | None => results !! name
    end.
Proof.
  induction entries as [|[n e] entries IH]; intros results name ext Hnd Hin.
  { inversion Hin. }
  rewrite fmap_cons in Hnd. apply NoDup_cons in Hnd as [Hfresh Hnd].
  cbn [foldl fst] in *.
  apply elem_of_cons in Hin as [[= -> ->]|Hin].
  - rewrite detect_loop_other by done.
    rewrite detect_body_lookup. by rewrite decide_True.
  - rewrite (IH _ name ext Hnd Hin). rewrite detect_body_lookup.
    rewrite decide_False; [done|].
    intros ->. apply Hfresh. apply list_elem_of_fmap. by exists (name, ext).
Qed.

(** C6.  [DetectAll] is best-effort and isolating, whatever the order in
    which the extensions are visited: it never returns an error; the
    result holds, for each registered extension, its data when [Detect]
    succeeded with non-nil data, and no key when [Detect] failed or
    returned nil; what one extension does has no effect on the key of
    another; names that are not registered have no key. *)
Theorem DetectAll_best_effort o r :
  (DetectAll o r ctx projectRoot).2 = None
  ∧ (∀ name ext, extensions r !! name = Some ext →
       match Detect ext ctx projectRoot with
       | (_, Some err) => (DetectAll o r ctx projectRoot).1 !! name = None
       | (data, None) =>
           (DetectAll o r ctx projectRoot).1 !! name
           = match data with VNil => None | _ => Some data end
       end)
  ∧ (∀ name, extensions r !! name = None →
       (DetectAll o r ctx projectRoot).1 !! name = None).
Proof.
  unfold DetectAll. simpl. split_and!; [done| |].
  - intros name ext Hl.
    rewrite (detect_loop_lookup _ ∅ name ext).
    + unfold contribution.
      destruct (Detect ext ctx projectRoot) as [data [err|]]; [done|].
      by destruct data.
    + apply NoDup_range_keys.
    + by apply elem_of_range.
  - intros name Hl. rewrite detect_loop_other; [done|].
    intros Hin. apply list_elem_of_fmap in Hin as [[n e] [Hn Hin]].
    simpl in Hn. subst n. apply elem_of_range in Hin. congruence.
Qed.

End extension_registry.

Section extension_registry_runs.
Import Sdk.

Lemma DetectAll_best_effort_witness :
  (DetectAll reversed Samples.two_extensions Background "/srv/app").1 !! "docker"
    = Some Samples.compose_data
  ∧ (DetectAll reversed Samples.two_extensions Background "/tmp/empty").1 !! "docker"
    = None
  ∧ (DetectAll reversed Samples.two_extensions Background "/srv/app").1 !! "kubernetes"
    = None.
Proof.
  split_and!.
  - apply (proj1 (proj2 (DetectAll_best_effort Background "/srv/app" reversed
                           Samples.two_extensions))
             "docker" Samples.docker_extension).
    vm_compute. reflexivity.
  - apply (proj1 (proj2 (DetectAll_best_effort Background "/tmp/empty" reversed
                           Samples.two_extensions))
             "docker" Samples.docker_extension).
    vm_compute. reflexivity.
  - apply (proj1 (proj2 (DetectAll_best_effort Background "/srv/app" reversed
                           Samples.two_extensions))
             "kubernetes" Samples.broken_extension).
    vm_compute. reflexivity.
Defined.

(** *** Merging *)

Lemma merge_loop_app dataMap (pre suf : list ContextExtension) :
  ∀ result : gmap string GoValue,
    merge_loop dataMap (pre ++ suf) result
    = match merge_loop dataMap pre result with
      | inl result' => merge_loop dataMap suf result'
      | inr err => inr err
      end.
Proof.
  induction pre as [|ext pre IH]; intros result; cbn [merge_loop app]; [done|].
  destruct (merge_body dataMap result ext) as [result'|err]; [apply IH | done].
Qed.

(** The result set after the extensions [pre], when none of their merges
    failed. *)
Lemma MergeExtensionData_inl pre dataMap (result : gmap string GoValue) :
  MergeExtensionData pre dataMap = (Some result, None)
  ↔ merge_loop dataMap pre ∅ = inl result.
Proof.
  unfold MergeExtensionData.
  destruct (merge_loop dataMap pre ∅); split; intros H; by simplify_eq.
Qed.

(** An error of [Merge] is the result of the whole call. *)
Lemma MergeExtensionData_error pre ext suf dataMap
    (result : gmap string GoValue) err :
  merge_loop dataMap pre ∅ = inl result →
  merge_body dataMap result ext = inr err →
  MergeExtensionData (pre ++ ext :: suf) dataMap = (None, Some err).
Proof.
  intros Hpre Hbody. unfold MergeExtensionData.
  rewrite merge_loop_app, Hpre. cbn [merge_loop]. by rewrite Hbody.
Qed.

(** A name that no listed extension bears is not visited: what [dataMap]
    holds under it does not reach the result. *)
Lemma merge_loop_unlisted dataMap (exts : list ContextExtension) name :
  ∀ result result' : gmap string GoValue,
    merge_loop dataMap exts result = inl result' →
    name ∉ Name <$> exts →
    result' !! name = result !! name.
Proof.
  induction exts as [|ext exts IH]; intros result result' Hloop Hname;
    cbn [merge_loop] in Hloop.
  - by injection Hloop as <-.
  - rewrite fmap_cons in Hname. apply not_elem_of_cons in Hname as [Hne Hname].
    destruct (merge_body dataMap result ext) as [result1|] eqn:Hbody; [|done].
    rewrite (IH result1 result' Hloop Hname).
    unfold merge_body in Hbody.
    destruct (result !! Name ext), (dataMap !! Name ext); try by simplify_eq.
    + destruct (Merge ext g g0) as [merged [err|]]; simplify_eq.
      by rewrite lookup_insert_ne.
    + simplify_eq. by rewrite lookup_insert_ne.
Qed.

Lemma MergeExtensionData_unlisted exts dataMap (result : gmap string GoValue) name :
  MergeExtensionData exts dataMap = (Some result, None) →
  name ∉ Name <$> exts →
  result !! name = None.
Proof.
  intros Hloop%MergeExtensionData_inl Hname.
  by rewrite (merge_loop_unlisted dataMap exts name ∅ result Hloop Hname).
Qed.

(** When the listed extensions have distinct names, no [Merge] is called:
    the result is [dataMap] cut down to the listed names. *)
Lemma merge_loop_distinct dataMap (exts : list ContextExtension) :
  ∀ result : gmap string GoValue,
    NoDup (Name <$> exts) →
    (∀ ext, ext ∈ exts → result !! Name ext = None) →
    ∃ result', merge_loop dataMap exts result = inl result'
      ∧ ∀ name, result' !! name
                = if decide (name ∈ Name <$> exts) then dataMap !! name
                  else result !! name.
Proof.
  induction exts as [|ext exts IH]; intros result Hnd Hfree; cbn [merge_loop].
  - exists result. split; [done|]. intros name.
    rewrite decide_False; [done|]. intros Hin. inversion Hin.
  - rewrite fmap_cons in Hnd. apply NoDup_cons in Hnd as [Hfresh Hnd].
    assert (∃ result1, merge_body dataMap result ext = inl result1
              ∧ ∀ name, result1 !! name
                        = if decide (name = Name ext) then dataMap !! name
                          else result !! name) as (result1 & Hbody & Hres1).
    { unfold merge_body. rewrite (Hfree ext) by left.
      destruct (dataMap !! Name ext) as [data|] eqn:Hdata.
      - eexists. split; [done|]. intros name.
        destruct (decide (name = Name ext)) as [->|Hne].
        + by rewrite lookup_insert_eq.
        + by rewrite lookup_insert_ne.
      - exists result. split; [done|]. intros name.
        destruct (decide (name = Name ext)) as [->|Hne]; [|done].
        rewrite Hdata. apply Hfree. left. }
    rewrite Hbody.
    destruct (IH result1 Hnd) as (result' & Hloop & Hres).
    { intros e He. rewrite Hres1. rewrite decide_False.
      - apply Hfree. by right.
      - intros Heq. apply Hfresh. rewrite <- Heq.
        apply list_elem_of_fmap. by exists e. }
    exists result'. split; [done|]. intros name. rewrite Hres, Hres1.
    rewrite fmap_cons.
    destruct (decide (name ∈ Name <$> exts)) as [Hin|Hnin].
    + rewrite decide_True; [done | by right].
    + destruct (decide (name = Name ext)) as [->|Hne].
      * rewrite decide_True; [done | left].
      * rewrite decide_False; [done|].
        intros Hin. apply elem_of_cons in Hin as [?|?]; done.
Qed.

Lemma MergeExtensionData_distinct exts dataMap :
  NoDup (Name <$> exts) →
  ∃ result, MergeExtensionData exts dataMap = (Some result, None)
    ∧ ∀ name, result !! name
              = if decide (name ∈ Name <$> exts) then dataMap !! name else None.
Proof.
  intros Hnd.
  destruct (merge_loop_distinct dataMap exts ∅ Hnd) as (result & Hloop & Hres).
  { intros ext _. apply lookup_empty. }
  exists result. split; [by apply MergeExtensionData_inl|].
  intros name. rewrite Hres. by rewrite lookup_empty.
Qed.

(** One step of [MergeExtensionData]: let [result] be the result set built
    from the extensions processed so far.  For the next extension: when
    its name is in [result] and in [dataMap], its [Merge] is applied to
    the existing and the incoming value, the merged value is stored under
    the name, and an error of [Merge] is returned by the whole call; when
    its name is in [dataMap] only, the value of [dataMap] is stored as it
    is; when its name is not in [dataMap], nothing changes. *)
Theorem MergeExtensionData_step pre ext suf dataMap (result : gmap string GoValue) :
  MergeExtensionData pre dataMap = (Some result, None) →
  match result !! Name ext, dataMap !! Name ext with
  | Some existing, Some incoming =>
      match Merge ext existing incoming with
      | (merged, None) =>
          MergeExtensionData (pre ++ [ext]) dataMap
          = (Some (<[Name ext := merged]> result), None)
      | (_, Some err) =>
          MergeExtensionData (pre ++ ext :: suf) dataMap = (None, Some err)
      end
  | None, Some incoming =>
      MergeExtensionData (pre ++ [ext]) dataMap
      = (Some (<[Name ext := incoming]> result), None)
  | _, None =>
      MergeExtensionData (pre ++ [ext]) dataMap = (Some result, None)
  end.
Proof.
  intros Hpre%MergeExtensionData_inl.
  assert (∀ result', merge_body dataMap result ext = inl result' →
            MergeExtensionData (pre ++ [ext]) dataMap = (Some result', None))
    as Hstep.
  { intros result' Hbody. apply MergeExtensionData_inl.
    rewrite merge_loop_app, Hpre. cbn [merge_loop]. by rewrite Hbody. }
  pose proof (MergeExtensionData_error pre ext suf dataMap result) as Herr.
  unfold merge_body in Hstep, Herr.
  destruct (result !! Name ext) as [existing|];
    destruct (dataMap !! Name ext) as [incoming|]; try by apply Hstep.
  destruct (Merge ext existing incoming) as [merged [err|]].
  - by apply Herr.
  - by apply Hstep.
Qed.

Lemma MergeExtensionData_step_witness :
  MergeExtensionData [Samples.docker_extension] Samples.docker_data
    = (Some (<["docker" := Samples.compose_data]> ∅), None)
  ∧ MergeExtensionData [Samples.docker_extension; Samples.docker_extension]
      Samples.docker_data
    = (Some (<["docker" := (Samples.merge_maps Samples.compose_data
                              Samples.compose_data).1]>
               (<["docker" := Samples.compose_data]> ∅)), None)
  ∧ MergeExtensionData
      [Samples.docker_extension; Samples.strict_extension; Samples.docker_extension]
      Samples.docker_data
    = (None, Some (Errorf "merge refused")).
Proof.
  assert (MergeExtensionData [] Samples.docker_data = (Some ∅, None)) as Hnil
    by reflexivity.
  pose proof (MergeExtensionData_step [] Samples.docker_extension []
                Samples.docker_data ∅ Hnil) as Hfirst.
  change (MergeExtensionData [Samples.docker_extension] Samples.docker_data
          = (Some (<["docker" := Samples.compose_data]> ∅), None)) in Hfirst.
  split_and!.
  - exact Hfirst.
  - exact (MergeExtensionData_step [Samples.docker_extension]
             Samples.docker_extension [] Samples.docker_data _ Hfirst).
  - exact (MergeExtensionData_step [Samples.docker_extension]
             Samples.strict_extension [Samples.docker_extension]
             Samples.docker_data _ Hfirst).
Defined.

(** C5, as the code has it.  In [MergeExtensionData] the names range over
    the listed extensions, taken in order.  Let [result] be the result set
    built from the extensions processed so far.  For the next listed
    extension: when its name is in [result] and in [dataMap], its [Merge]
    is applied to the existing and the incoming value, the merged value is
    stored under the name, and an error of [Merge] is returned by the whole
    call; when its name is in [dataMap] only, the value of [dataMap] is
    stored as it is; when its name is not in [dataMap], nothing changes.
    A name that no listed extension bears is not taken into the result,
    whatever [dataMap] holds under it. *)
Theorem MergeExtensionData_listed pre ext suf dataMap (result : gmap string GoValue) :
  MergeExtensionData pre dataMap = (Some result, None) →
  match result !! Name ext, dataMap !! Name ext with
  | Some existing, Some incoming =>
      match Merge ext existing incoming with
      | (merged, None) =>
          MergeExtensionData (pre ++ [ext]) dataMap
          = (Some (<[Name ext := merged]> result), None)
      | (_, Some err) =>
          MergeExtensionData (pre ++ ext :: suf) dataMap = (None, Some err)
      end
  | None, Some incoming =>
      MergeExtensionData (pre ++ [ext]) dataMap
      = (Some (<[Name ext := incoming]> result), None)
  | _, None =>
      MergeExtensionData (pre ++ [ext]) dataMap = (Some result, None)
  end
  ∧ ∀ (final : gmap string GoValue) name,
      MergeExtensionData (pre ++ ext :: suf) dataMap = (Some final, None) →
      name ∉ Name <$> (pre ++ ext :: suf) →
      final !! name = None.
Proof.
  intros Hpre. split.
  - by apply MergeExtensionData_step.
  - intros final name Hfinal Hname.
    by apply (MergeExtensionData_unlisted (pre ++ ext :: suf) dataMap).
Qed.

Lemma MergeExtensionData_listed_witness :
  MergeExtensionData ([] ++ [Samples.docker_extension]) Samples.docker_data
    = (Some (<["docker" := Samples.compose_data]> ∅), None)
  ∧ ∀ (final : gmap string GoValue) name,
      MergeExtensionData ([] ++ Samples.docker_extension :: [Samples.broken_extension])
        Samples.docker_data = (Some final, None) →
      name ∉ Name <$> ([] ++ Samples.docker_extension :: [Samples.broken_extension]) →
      final !! name = None.
Proof.
  exact (MergeExtensionData_listed [] Samples.docker_extension
           [Samples.broken_extension] Samples.docker_data ∅ eq_refl).
Defined.

(** C5, as the claim states it, fails on the code.  The name ["docker"] is
    present in [dataMap] only (the result set is empty), and the one listed
    extension is named ["kubernetes"]: the call succeeds, and the value of
    [dataMap] under ["docker"] is not taken into the result.  So it is not
    the case that every name present only in [dataMap] is taken as it is,
    even when the listed extensions have distinct names and no [Merge] is
    ever called. *)
Lemma MergeExtensionData_counterexample :
  (Samples.docker_data !! "docker" = Some Samples.compose_data
   ∧ MergeExtensionData [Samples.broken_extension] Samples.docker_data
     = (Some ∅, None)
   ∧ (∅ : gmap string GoValue) !! "docker" = None)
  ∧ ¬ (∀ (exts : list ContextExtension) (dataMap result : gmap string GoValue)
         name data,
         NoDup (Name <$> exts) →
         MergeExtensionData exts dataMap = (Some result, None) →
         dataMap !! name = Some data →
         result !! name = Some data).
Proof.
  assert (MergeExtensionData [Samples.broken_extension] Samples.docker_data
          = (Some ∅, None)) as Hrun by (vm_compute; reflexivity).
  split.
  - split_and!; [vm_compute; reflexivity | exact Hrun | apply lookup_empty].
  - intros Hclaim.
    assert ((∅ : gmap string GoValue) !! "docker" = Some Samples.compose_data)
      as Habsurd.
    { apply (Hclaim [Samples.broken_extension] Samples.docker_data ∅ "docker"
               Samples.compose_data); [apply NoDup_singleton | exact Hrun |].
      vm_compute. reflexivity. }
    rewrite lookup_empty in Habsurd. discriminate Habsurd.
Qed.

End extension_registry_runs.

(** ** Registering nil *)
Section register_nil.

(** C10.  Registering nil is a silent no-op on the extension registry
    and on the executor provider registry: no error, and the registry is
    the one before the call.  The plugin registry rejects nil with an
    error (and stays as it was). *)
Theorem Register_nil (exts : Sdk.ExtensionRegistry) (execs : Shell.ExecutorRegistry)
    (plugs : PluginPkg.Registry) :
  Sdk.Register exts None = (None, exts)
  ∧ Shell.Register execs None = (None, execs)
  ∧ ∃ err, PluginPkg.Register plugs None = (Some err, plugs).
Proof. split_and!; [done | done | by eexists]. Qed.

End register_nil.

(** ** The compatibility layer *)
Section compatibility.
Import Ctx.
Implicit Types (ctx : ProjectContext) (dockerCtx : gmap string GoValue).

Lemma Populate_unfold ctx :
  PopulateCompatibilityFields ctx
  = match Extensions ctx with
    | Some exts =>
        match as_map (exts !! "docker") with
        | Some dockerCtx => populate_from dockerCtx ctx
        | None => ctx
        end
    | None => ctx
    end.
Proof.
  unfold PopulateCompatibilityFields.
  destruct (Extensions ctx) as [exts|]; [|done].
  by destruct (exts !! "docker") as [[]|].
Qed.

Lemma populate_from_fields dockerCtx ctx :
  Extensions (populate_from dockerCtx ctx) = Extensions ctx
  ∧ ComposeFiles (populate_from dockerCtx ctx)
    = default (ComposeFiles ctx) (as_string_slice (dockerCtx !! "compose_files"))
  ∧ ComposeOverride (populate_from dockerCtx ctx)
    = default (ComposeOverride ctx) (as_string (dockerCtx !! "compose_override"))
  ∧ DockerRunning (populate_from dockerCtx ctx)
    = default (DockerRunning ctx) (as_bool (dockerCtx !! "docker_running"))
  ∧ ContainersStatus (populate_from dockerCtx ctx)
    = default (ContainersStatus ctx)
        (as_status_map (dockerCtx !! "containers_status")).
Proof.
  unfold populate_from.
  destruct (as_string_slice _), (as_string _), (as_bool _), (as_status_map _);
    by destruct ctx.
Qed.

Lemma populate_from_twice dockerCtx ctx :
  populate_from dockerCtx (populate_from dockerCtx ctx) = populate_from dockerCtx ctx.
Proof.
  unfold populate_from.
  destruct (as_string_slice _), (as_string _), (as_bool _), (as_status_map _);
    by destruct ctx.
Qed.

Lemma Populate_Extensions ctx :
  Extensions (PopulateCompatibilityFields ctx) = Extensions ctx.
Proof.
  rewrite Populate_unfold.
  destruct (Extensions ctx) as [exts|] eqn:He; [|done].
  destruct (as_map (exts !! "docker")); [|done].
  by rewrite (proj1 (populate_from_fields _ _)).
Qed.

Lemma Populate_idempotent ctx :
  PopulateCompatibilityFields (PopulateCompatibilityFields ctx)
  = PopulateCompatibilityFields ctx.
Proof.
  rewrite (Populate_unfold (PopulateCompatibilityFields ctx)), Populate_Extensions.
  rewrite Populate_unfold.
  destruct (Extensions ctx) as [exts|]; [|done].
  destruct (as_map (exts !! "docker")); [|done].
  apply populate_from_twice.
Qed.

(** Writing [Extensions] leaves the legacy fields alone. *)
Lemma set_Extensions_legacy v ctx :
  hasDockerData (set_Extensions v ctx) = hasDockerData ctx
  ∧ dockerCtx_of (set_Extensions v ctx) = dockerCtx_of ctx
  ∧ Extensions (set_Extensions v ctx) = v.
Proof. done. Qed.

Lemma set_Extensions_twice v w ctx :
  set_Extensions v (set_Extensions w ctx) = set_Extensions v ctx.
Proof. done. Qed.

Lemma Update_unfold ctx :
  UpdateExtensionsFromCompatibility ctx
  = set_Extensions (Some (updated_extensions ctx)) ctx.
Proof.
  unfold UpdateExtensionsFromCompatibility, updated_extensions.
  destruct ctx as [root wd mode loc [exts|] files override running status err];
    cbn [Extensions]; rewrite ?(proj1 (set_Extensions_legacy _ _));
    match goal with |- context [negb ?b] => destruct b end; done.
Qed.

Lemma Update_idempotent ctx :
  UpdateExtensionsFromCompatibility (UpdateExtensionsFromCompatibility ctx)
  = UpdateExtensionsFromCompatibility ctx.
Proof.
  rewrite (Update_unfold (UpdateExtensionsFromCompatibility ctx)).
  rewrite Update_unfold, set_Extensions_twice.
  f_equal. f_equal. unfold updated_extensions at 1.
  destruct (set_Extensions_legacy (Some (updated_extensions ctx)) ctx)
    as (-> & -> & ->).
  unfold updated_extensions. cbn [default].
  destruct (hasDockerData ctx); [apply insert_insert_eq | done].
Qed.

(** C3.  Both functions of the compatibility layer are idempotent:
    applying [PopulateCompatibilityFields] twice gives the context that
    applying it once gives, and so does
    [UpdateExtensionsFromCompatibility]. *)
Theorem compatibility_idempotent ctx :
  PopulateCompatibilityFields (PopulateCompatibilityFields ctx)
  = PopulateCompatibilityFields ctx
  ∧ UpdateExtensionsFromCompatibility (UpdateExtensionsFromCompatibility ctx)
    = UpdateExtensionsFromCompatibility ctx.
Proof. split; [apply Populate_idempotent | apply Update_idempotent]. Qed.

(** *** The round trip *)

(** The entries of the map built from the legacy fields. *)
Lemma dockerCtx_of_lookup ctx :
  dockerCtx_of ctx !! "compose_files"
    = (if bool_decide (0 < length (ComposeFiles ctx))
       then Some (VStringSlice (ComposeFiles ctx)) else None)
  ∧ dockerCtx_of ctx !! "compose_override"
    = (if bool_decide (ComposeOverride ctx ≠ EmptyString)
       then Some (VString (ComposeOverride ctx)) else None)
  ∧ dockerCtx_of ctx !! "docker_running" = Some (VBool (DockerRunning ctx))
  ∧ dockerCtx_of ctx !! "containers_status"
    = (if bool_decide (0 < size (ContainersStatus ctx))
       then Some (VStatusMap (ContainersStatus ctx)) else None).
Proof.
  unfold dockerCtx_of.
  destruct (bool_decide (0 < length (ComposeFiles ctx)));
    destruct (bool_decide (ComposeOverride ctx ≠ EmptyString));
    destruct (bool_decide (0 < size (ContainersStatus ctx)));
    split_and!;
    repeat (first [rewrite lookup_insert_eq | rewrite lookup_insert_ne by done]);
    by rewrite ?lookup_empty.
Qed.

(** In a well-typed docker entry, a tracked key is read back by the
    assertion of its type. *)
Lemma well_typed_views dockerCtx :
  well_typed dockerCtx = true →
  dockerCtx !! "compose_files"
    = VStringSlice <$> as_string_slice (dockerCtx !! "compose_files")
  ∧ dockerCtx !! "compose_override"
    = VString <$> as_string (dockerCtx !! "compose_override")
  ∧ dockerCtx !! "docker_running"
    = VBool <$> as_bool (dockerCtx !! "docker_running")
  ∧ dockerCtx !! "containers_status"
    = VStatusMap <$> as_status_map (dockerCtx !! "containers_status").
Proof.
  unfold well_typed, typed_as. intros H.
  apply andb_prop in H as [H H4]. apply andb_prop in H as [H H3].
  apply andb_prop in H as [H1 H2].
  split_and!.
  - by destruct (dockerCtx !! "compose_files") as [[]|].
  - by destruct (dockerCtx !! "compose_override") as [[]|].
  - by destruct (dockerCtx !! "docker_running") as [[]|].
  - by destruct (dockerCtx !! "containers_status") as [[]|].
Qed.

Lemma well_formed_inv ctx :
  well_formed ctx = true →
  ∃ exts dockerCtx,
    Extensions ctx = Some exts
    ∧ exts !! "docker" = Some (VMap dockerCtx)
    ∧ well_typed dockerCtx = true.
Proof.
  unfold well_formed. destruct (Extensions ctx) as [exts|]; [|done].
  destruct (exts !! "docker") as [[| | | | |dockerCtx|]|] eqn:Hdocker; try done.
  intros Hwt. by exists exts, dockerCtx.
Qed.

(** The docker entry before and after the round trip. *)
Lemma roundtrip_docker_value ctx exts dockerCtx :
  Extensions ctx = Some exts →
  exts !! "docker" = Some (VMap dockerCtx) →
  PopulateCompatibilityFields ctx = populate_from dockerCtx ctx
  ∧ (∀ key, docker_value ctx key = dockerCtx !! key)
  ∧ (∀ key,
       docker_value
         (UpdateExtensionsFromCompatibility (PopulateCompatibilityFields ctx)) key
       = if hasDockerData (populate_from dockerCtx ctx)
         then dockerCtx_of (populate_from dockerCtx ctx) !! key
         else dockerCtx !! key)
  ∧ (hasDockerData (populate_from dockerCtx ctx) = false →
     Extensions (UpdateExtensionsFromCompatibility (PopulateCompatibilityFields ctx))
     = Extensions ctx).
Proof.
  intros Hexts Hdocker.
  assert (PopulateCompatibilityFields ctx = populate_from dockerCtx ctx) as Hpop.
  { rewrite Populate_unfold, Hexts, Hdocker. done. }
  rewrite Hpop, Update_unfold. unfold updated_extensions.
  rewrite (proj1 (populate_from_fields dockerCtx ctx)), Hexts. cbn [default].
  split_and!; [done| | |].
  - intros key. unfold docker_value. rewrite Hexts. simpl. by rewrite Hdocker.
  - intros key. unfold docker_value. simpl.
    destruct (hasDockerData (populate_from dockerCtx ctx)).
    + by rewrite lookup_insert_eq.
    + by rewrite Hdocker.
  - by intros ->.
Qed.

(** A tracked key that carries data sets its legacy field to that data,
    and is written back with it. *)
Lemma carried_key_roundtrip ctx exts dockerCtx key :
  Extensions ctx = Some exts →
  exts !! "docker" = Some (VMap dockerCtx) →
  well_typed dockerCtx = true →
  key ∈ tracked_keys →
  carries_data ctx key = true →
  hasDockerData (populate_from dockerCtx ctx) = true
  ∧ dockerCtx_of (populate_from dockerCtx ctx) !! key = dockerCtx !! key.
Proof.
  intros Hexts Hdocker Hwt Hkey Hcarries.
  destruct (roundtrip_docker_value ctx exts dockerCtx Hexts Hdocker)
    as (_ & Hbefore & _ & _).
  unfold carries_data in Hcarries. rewrite Hbefore in Hcarries.
  destruct (well_typed_views dockerCtx Hwt) as (V1 & V2 & V3 & V4).
  destruct (populate_from_fields dockerCtx ctx) as (_ & F1 & F2 & F3 & F4).
  destruct (dockerCtx_of_lookup (populate_from dockerCtx ctx))
    as (L1 & L2 & L3 & L4).
  unfold hasDockerData. rewrite F1, F2, F3, F4 in *.
  unfold tracked_keys in Hkey.
  repeat (apply elem_of_cons in Hkey as [->|Hkey]); [| | | |inversion Hkey].
  - rewrite L1, V1 in *.
    destruct (as_string_slice (dockerCtx !! "compose_files")) as [l|];
      [|done]. simpl in *.
    destruct l; [done|]. by rewrite bool_decide_true by (simpl; lia).
  - rewrite L2, V2 in *.
    destruct (as_string (dockerCtx !! "compose_override")) as [x|];
      [|done]. simpl in *.
    apply negb_true_iff, bool_decide_eq_false in Hcarries.
    rewrite (bool_decide_true (x ≠ EmptyString)) by done.
    by rewrite orb_true_r.
  - rewrite L3, V3 in *.
    destruct (as_bool (dockerCtx !! "docker_running")) as [b|];
      [|done]. simpl in *.
    apply negb_true_iff, negb_false_iff in Hcarries. subst b.
    by rewrite !orb_true_r.
  - rewrite L4, V4 in *.
    destruct (as_status_map (dockerCtx !! "containers_status")) as [m|];
      [|done]. simpl in *.
    apply negb_true_iff, bool_decide_eq_false in Hcarries.
    rewrite (bool_decide_true (0 < size m)) by lia.
    by rewrite !orb_true_r.
Qed.

(** On a context whose legacy fields are unset, the legacy fields hold
    data after [PopulateCompatibilityFields] only if a tracked key
    carries data. *)
Lemma unset_hasDockerData ctx exts dockerCtx :
  Extensions ctx = Some exts →
  exts !! "docker" = Some (VMap dockerCtx) →
  well_typed dockerCtx = true →
  legacy_unset ctx = true →
  hasDockerData (populate_from dockerCtx ctx) = true →
  ∃ key, key ∈ tracked_keys ∧ carries_data ctx key = true.
Proof.
  intros Hexts Hdocker Hwt Hunset.
  destruct (roundtrip_docker_value ctx exts dockerCtx Hexts Hdocker)
    as (_ & Hbefore & _ & _).
  destruct (well_typed_views dockerCtx Hwt) as (V1 & V2 & V3 & V4).
  destruct (populate_from_fields dockerCtx ctx) as (_ & F1 & F2 & F3 & F4).
  unfold legacy_unset in Hunset.
  apply andb_prop in Hunset as [Hunset U4]. apply andb_prop in Hunset as [Hunset U3].
  apply andb_prop in Hunset as [U1 U2].
  apply bool_decide_eq_true in U1, U2, U4. apply negb_true_iff in U3.
  unfold hasDockerData, carries_data. rewrite F1, F2, F3, F4.
  setoid_rewrite Hbefore. unfold tracked_keys.
  intros Hhas. repeat (apply orb_prop in Hhas as [Hhas|Hhas]).
  - exists "compose_files". split; [repeat constructor|]. rewrite V1.
    destruct (as_string_slice _) as [l|]; simpl in *;
      apply bool_decide_eq_true in Hhas; [|lia].
    apply negb_true_iff, bool_decide_eq_false. lia.
  - exists "compose_override". split; [repeat constructor|]. rewrite V2.
    destruct (as_string _) as [x|]; simpl in *;
      apply bool_decide_eq_true in Hhas; [|done].
    by apply negb_true_iff, bool_decide_eq_false.
  - exists "docker_running". split; [repeat constructor|]. rewrite V3.
    destruct (as_bool _) as [b|]; simpl in *; [|congruence].
    by rewrite Hhas.
  - exists "containers_status". split; [repeat constructor|]. rewrite V4.
    destruct (as_status_map _) as [m|]; simpl in *;
      apply bool_decide_eq_true in Hhas; [|lia].
    apply negb_true_iff, bool_decide_eq_false. lia.
Qed.

(** On such a context, a tracked key other than [docker_running] that
    carries no data is not written, and [docker_running] is written with
    the value it had, or with [false] when it was absent. *)
Lemma unset_key_rebuilt ctx exts dockerCtx :
  Extensions ctx = Some exts →
  exts !! "docker" = Some (VMap dockerCtx) →
  well_typed dockerCtx = true →
  legacy_unset ctx = true →
  dockerCtx_of (populate_from dockerCtx ctx) !! "docker_running"
    = Some (default (VBool false) (dockerCtx !! "docker_running"))
  ∧ ∀ key, key ∈ tracked_keys → key ≠ "docker_running" →
      carries_data ctx key = false →
      dockerCtx_of (populate_from dockerCtx ctx) !! key = None.
Proof.
  intros Hexts Hdocker Hwt Hunset.
  destruct (roundtrip_docker_value ctx exts dockerCtx Hexts Hdocker)
    as (_ & Hbefore & _ & _).
  destruct (well_typed_views dockerCtx Hwt) as (V1 & V2 & V3 & V4).
  destruct (populate_from_fields dockerCtx ctx) as (_ & F1 & F2 & F3 & F4).
  destruct (dockerCtx_of_lookup (populate_from dockerCtx ctx))
    as (L1 & L2 & L3 & L4).
  unfold legacy_unset in Hunset.
  apply andb_prop in Hunset as [Hunset U4]. apply andb_prop in Hunset as [Hunset U3].
  apply andb_prop in Hunset as [U1 U2].
  apply bool_decide_eq_true in U1, U2, U4. apply negb_true_iff in U3.
  rewrite F1, F2, F3, F4 in *. split.
  - rewrite L3, V3. destruct (as_bool _); simpl; [done | by rewrite U3].
  - intros key Hkey Hne Hcarries.
    unfold carries_data in Hcarries. rewrite Hbefore in Hcarries.
    unfold tracked_keys in Hkey.
    repeat (apply elem_of_cons in Hkey as [->|Hkey]);
      [| |done| |inversion Hkey].
    + rewrite L1. rewrite V1 in Hcarries.
      destruct (as_string_slice _) as [l|]; simpl in *.
      * apply negb_false_iff, bool_decide_eq_true in Hcarries.
        by rewrite bool_decide_false by lia.
      * by rewrite bool_decide_false by lia.
    + rewrite L2. rewrite V2 in Hcarries.
      destruct (as_string _) as [x|]; simpl in *.
      * apply negb_false_iff, bool_decide_eq_true in Hcarries.
        rewrite bool_decide_false; [done|]. by intros ?.
      * rewrite bool_decide_false; [done|]. by intros ?.
    + rewrite L4. rewrite V4 in Hcarries.
      destruct (as_status_map _) as [m|]; simpl in *.
      * apply negb_false_iff, bool_decide_eq_true in Hcarries.
        by rewrite bool_decide_false by lia.
      * by rewrite bool_decide_false by lia.
Qed.

(** C2, as the code has it.  On a well-formed context, after
    [PopulateCompatibilityFields] and then
    [UpdateExtensionsFromCompatibility]:
    - every tracked key that carries data (a non-empty list, a non-empty
      string, [true], a non-empty mapping) has its original value;
    and, when the legacy fields were unset before,
    - if no tracked key carries data, the extension map is the original
      one, so every key is as it was, present or absent;
    - if some tracked key carries data, the docker entry is rebuilt:
      [docker_running] is present with its original value, or with
      [false] when it was absent, and every other tracked key that
      carries no data (absent, or present with an empty value) is
      absent. *)
Theorem roundtrip_tracked ctx :
  well_formed ctx = true →
  (∀ key, key ∈ tracked_keys → carries_data ctx key = true →
     docker_value
       (UpdateExtensionsFromCompatibility (PopulateCompatibilityFields ctx)) key
     = docker_value ctx key)
  ∧ (legacy_unset ctx = true →
     ((∀ key, key ∈ tracked_keys → carries_data ctx key = false) →
        Extensions
          (UpdateExtensionsFromCompatibility (PopulateCompatibilityFields ctx))
        = Extensions ctx)
     ∧ ((∃ key, key ∈ tracked_keys ∧ carries_data ctx key = true) →
          docker_value
            (UpdateExtensionsFromCompatibility (PopulateCompatibilityFields ctx))
            "docker_running"
          = Some (default (VBool false) (docker_value ctx "docker_running"))
          ∧ ∀ key, key ∈ tracked_keys → key ≠ "docker_running" →
              carries_data ctx key = false →
              docker_value
                (UpdateExtensionsFromCompatibility
                   (PopulateCompatibilityFields ctx)) key
              = None)).
Proof.
  intros (exts & dockerCtx & Hexts & Hdocker & Hwt)%well_formed_inv.
  destruct (roundtrip_docker_value ctx exts dockerCtx Hexts Hdocker)
    as (_ & Hbefore & Hafter & Hsame).
  split.
  - intros key Hkey Hcarries.
    destruct (carried_key_roundtrip ctx exts dockerCtx key) as [Hhas Hval];
      try done.
    by rewrite Hafter, Hhas, Hbefore.
  - intros Hunset. split.
    + intros Hnone. apply Hsame.
      destruct (hasDockerData (populate_from dockerCtx ctx)) eqn:Hhas; [|done].
      destruct (unset_hasDockerData ctx exts dockerCtx) as (key & Hkey & Hc);
        try done.
      rewrite (Hnone key Hkey) in Hc. done.
    + intros (key & Hkey & Hcarries).
      destruct (carried_key_roundtrip ctx exts dockerCtx key) as [Hhas _];
        try done.
      destruct (unset_key_rebuilt ctx exts dockerCtx) as [Hrun Hrest];
        try done.
      split.
      * by rewrite Hafter, Hhas, Hbefore.
      * intros k Hk Hne Hc. rewrite Hafter, Hhas. by apply Hrest.
Qed.

End compatibility.

Section compatibility_runs.
Import Ctx.

Lemma roundtrip_tracked_witness :
  docker_value
    (UpdateExtensionsFromCompatibility
       (PopulateCompatibilityFields Samples.full_ctx)) "compose_files"
  = Some (VStringSlice ["docker-compose.yml"])
  ∧ docker_value
      (UpdateExtensionsFromCompatibility
         (PopulateCompatibilityFields Samples.full_ctx)) "docker_running"
    = Some (VBool true)
  ∧ docker_value
      (UpdateExtensionsFromCompatibility
         (PopulateCompatibilityFields Samples.full_ctx)) "compose_override"
    = None.
Proof.
  assert (well_formed Samples.full_ctx = true) as Hwf by (vm_compute; reflexivity).
  assert (legacy_unset Samples.full_ctx = true) as Hunset
    by (vm_compute; reflexivity).
  assert ("compose_files" ∈ tracked_keys) as Hfiles by (unfold tracked_keys; repeat constructor).
  assert (carries_data Samples.full_ctx "compose_files" = true) as Hcarries
    by (vm_compute; reflexivity).
  destruct (roundtrip_tracked Samples.full_ctx Hwf) as [Hkept Hrebuilt].
  destruct (Hrebuilt Hunset) as [_ Hsome].
  destruct Hsome as [Hrunning Hdropped];
    [exists "compose_files"; split; [exact Hfiles | exact Hcarries]|].
  split_and!.
  - exact (Hkept "compose_files" Hfiles Hcarries).
  - exact Hrunning.
  - apply Hdropped.
    + unfold tracked_keys. repeat constructor.
    + discriminate.
    + vm_compute. reflexivity.
Defined.

(** The legacy fields set directly ([ComposeFiles] and [DockerRunning])
    over an empty extension map: the docker entry gets these two keys and
    no [compose_override]. *)
Example Update_from_legacy_fields :
  Extensions
    (UpdateExtensionsFromCompatibility
       (mkProjectContext "/srv/app" "/srv/app" "single-repo" "project"
          (Some ∅) ["a.yml"] EmptyString true ∅ None))
  = Some (<["docker" := VMap (<["docker_running" := VBool true]>
                                 (<["compose_files" := VStringSlice ["a.yml"]]> ∅))]> ∅).
Proof. vm_compute. reflexivity. Qed.

(** C2, as the claim states it, fails on the code.  On the context that
    detection leaves for a project with a compose file (the docker entry
    holds [compose_files] only, no legacy field is set), the round trip
    adds the key [docker_running]; on a context whose docker entry holds
    an empty [compose_override] and an empty [containers_status], the
    round trip removes both keys.  So presence and absence of the tracked
    keys are not preserved for every well-formed context. *)
Lemma roundtrip_counterexample :
  (well_formed Samples.detected_ctx = true
   ∧ docker_value Samples.detected_ctx "docker_running" = None
   ∧ docker_value
       (UpdateExtensionsFromCompatibility
          (PopulateCompatibilityFields Samples.detected_ctx)) "docker_running"
     = Some (VBool false))
  ∧ (well_formed Samples.full_ctx = true
     ∧ docker_value Samples.full_ctx "compose_override" = Some (VString EmptyString)
     ∧ docker_value
         (UpdateExtensionsFromCompatibility
            (PopulateCompatibilityFields Samples.full_ctx)) "compose_override"
       = None)
  ∧ ¬ (∀ ctx, well_formed ctx = true →
         ∀ key, key ∈ tracked_keys →
           docker_value
             (UpdateExtensionsFromCompatibility (PopulateCompatibilityFields ctx)) key
           = docker_value ctx key).
Proof.
  assert (well_formed Samples.detected_ctx = true) as Hwf
    by (vm_compute; reflexivity).
  split; [|split].
  - split_and!; vm_compute; reflexivity.
  - split_and!; vm_compute; reflexivity.
  - intros Hclaim.
    assert ("docker_running" ∈ tracked_keys) as Hkey
      by (unfold tracked_keys; repeat constructor).
    specialize (Hclaim Samples.detected_ctx Hwf "docker_running" Hkey).
    vm_compute in Hclaim. discriminate Hclaim.
Qed.

End compatibility_runs.


(** ** More on the plugin registry *)
Section plugin_registry_lookups.
Import PluginPkg.
Implicit Types (r : Registry) (p q : Plugin) (ps : list Plugin) (o : RangeOrder).

(** The registry that a run of successful registrations leaves. *)
Lemma registered_holds_exactly ps errs r :
  RegisterEach NewRegistry ps = (errs, r) →
  Forall (λ err, err = None) errs →
  holds_exactly r ps.
Proof.
  intros Hrun Hok. change ps with ([] ++ ps).
  by apply (holds_exactly_RegisterEach ps NewRegistry [] errs r holds_exactly_new).
Qed.

(** A registration that succeeds met no clash. *)
Lemma Register_success_fresh r registered p r' :
  holds_exactly r registered →
  Register r (Some p) = (None, r') →
  fresh_for registered p.
Proof.
  intros (_ & I2 & _ & I4 & _) Hreg.
  apply Register_success in Hreg as (Hname & Hpn & Han & Hal & _ & _).
  split; [done|]. intros q Hq. split_and!.
  - intros Heq. pose proof (I2 q Hq) as Hl. rewrite <- Heq in Hl. congruence.
  - intros Hin. pose proof (I4 q _ Hq Hin). congruence.
  - intros alias Ha. destruct (Hal alias Ha) as [Hp1 Ha1]. split.
    + intros ->. pose proof (I2 q Hq). congruence.
    + intros Hin. pose proof (I4 q _ Hq Hin). congruence.
Qed.

Lemma RegisterEach_success_conflict_free ps : ∀ r registered errs r',
  holds_exactly r registered →
  RegisterEach r ps = (errs, r') →
  Forall (λ err, err = None) errs →
  conflict_free registered ps.
Proof.
  induction ps as [|p ps IH]; intros r registered errs r' Hinv Hrun Hok; [done|].
  cbn [RegisterEach] in Hrun.
  destruct (Register r (Some p)) as [err r1] eqn:Hreg.
  destruct (RegisterEach r1 ps) as [errs' r2] eqn:Hrest.
  injection Hrun as <- <-. apply Forall_cons in Hok as [-> Hok].
  split.
  - by apply (Register_success_fresh r registered p r1).
  - apply (IH r1 _ errs' r2); [|done|done].
    by apply (holds_exactly_Register r).
Qed.

(** X1.  A run of registrations on a new registry succeeds as a whole exactly
    when the plugins are conflict free: no name is empty, and the names and
    aliases of each plugin differ from the names and aliases of the plugins
    before it. *)
Theorem RegisterEach_succeeds_iff ps :
  conflict_free [] ps
  ↔ ∃ r, RegisterEach NewRegistry ps = (replicate (length ps) None, r).
Proof.
  split.
  - intros Hfree.
    by apply (RegisterEach_conflict_free ps NewRegistry [] holds_exactly_new).
  - intros [r Hrun].
    apply (RegisterEach_success_conflict_free ps NewRegistry [] _ r
             holds_exactly_new Hrun).
    apply Forall_forall. intros err Hin.
    by apply elem_of_replicate in Hin as [-> _].
Qed.

Lemma RegisterEach_succeeds_iff_witness :
  conflict_free [] [Samples.docker_plugin; Samples.git_plugin]
  ∧ ¬ conflict_free [] [Samples.docker_plugin; Samples.d_plugin].
Proof.
  split.
  - apply RegisterEach_succeeds_iff. eexists. vm_compute. reflexivity.
  - intros [r Hrun]%RegisterEach_succeeds_iff. vm_compute in Hrun. discriminate Hrun.
Defined.

(** X2.  Aliases resolve in one step to the name of a registered plugin, and
    [Get] on an alias and on the name it resolves to return the same
    plugin. *)
Theorem ResolveAlias_canonical ps errs r :
  RegisterEach NewRegistry ps = (errs, r) →
  Forall (λ err, err = None) errs →
  (∀ p alias, p ∈ ps → alias ∈ Aliases (Metadata p) →
     ResolveAlias r alias = (Name p, true) ∧ IsAlias r alias = true)
  ∧ (∀ alias canonical, ResolveAlias r alias = (canonical, true) →
       ∃ p, p ∈ ps ∧ Name p = canonical ∧ alias ∈ Aliases (Metadata p)
            ∧ Get r alias = (Some p, true)
            ∧ Get r canonical = (Some p, true))
  ∧ (∀ s, IsAlias r s = false → ResolveAlias r s = (EmptyString, false)).
Proof.
  intros Hrun Hok.
  pose proof (registered_holds_exactly ps errs r Hrun Hok) as Hinv.
  destruct (holds_exactly_Get r ps Hinv) as [Hget _].
  destruct Hinv as (I1 & I2 & I3 & I4 & I5).
  split_and!.
  - intros p alias Hp Ha. unfold ResolveAlias, IsAlias.
    rewrite (I4 p alias Hp Ha). split; [done|].
    apply bool_decide_eq_true. eauto.
  - intros alias canonical Hres. unfold ResolveAlias in Hres.
    destruct (aliases r !! alias) as [n|] eqn:Hal; [|done].
    injection Hres as ->.
    destruct (I3 alias canonical Hal) as (p & Hp & Hn & Ha).
    exists p. destruct (Hget p Hp) as [Hname Halias].
    split_and!; try done.
    + by apply Halias.
    + by rewrite <- Hn.
  - intros s Hs. unfold IsAlias in Hs. apply bool_decide_eq_false in Hs.
    unfold ResolveAlias. destruct (aliases r !! s); [|done].
    exfalso. apply Hs. eauto.
Qed.

Lemma ResolveAlias_canonical_witness :
  ResolveAlias Samples.two_plugins "d" = ("docker", true)
  ∧ IsAlias Samples.two_plugins "d" = true.
Proof.
  assert (RegisterEach NewRegistry [Samples.docker_plugin; Samples.git_plugin]
          = ([None; None], Samples.two_plugins)) as Hrun
    by (vm_compute; reflexivity).
  destruct (ResolveAlias_canonical _ _ _ Hrun) as (Hres & _ & _).
  { repeat constructor. }
  apply (Hres Samples.docker_plugin "d"); [left | simpl; left].
Defined.

(** X3.  [GetAliases] lists the aliases that resolve to the plugin: every alias
    it returns for a name resolves back to that name, and it returns
    nothing for a name that is not registered. *)
Theorem GetAliases_resolve ps errs r :
  RegisterEach NewRegistry ps = (errs, r) →
  Forall (λ err, err = None) errs →
  (∀ p, p ∈ ps → GetAliases r (Name p) = Aliases (Metadata p))
  ∧ (∀ name alias, alias ∈ GetAliases r name →
       ResolveAlias r alias = (name, true))
  ∧ (∀ name, (∀ p, p ∈ ps → Name p ≠ name) → GetAliases r name = []).
Proof.
  intros Hrun Hok.
  destruct (registered_holds_exactly ps errs r Hrun Hok)
    as (I1 & I2 & I3 & I4 & I5).
  unfold GetAliases, ResolveAlias. split_and!.
  - intros p Hp. by rewrite (I2 p Hp).
  - intros name alias Hin.
    destruct (plugins r !! name) as [p|] eqn:Hp; [|inversion Hin].
    destruct (I1 name p Hp) as [Hps <-].
    by rewrite (I4 p alias Hps Hin).
  - intros name Hnone.
    destruct (plugins r !! name) as [p|] eqn:Hp; [|done].
    destruct (I1 name p Hp) as [Hps Hn]. by destruct (Hnone p Hps).
Qed.

Lemma GetAliases_resolve_witness :
  GetAliases Samples.two_plugins "docker" = ["d"]
  ∧ GetAliases Samples.two_plugins "compose" = [].
Proof.
  assert (RegisterEach NewRegistry [Samples.docker_plugin; Samples.git_plugin]
          = ([None; None], Samples.two_plugins)) as Hrun
    by (vm_compute; reflexivity).
  destruct (GetAliases_resolve _ _ _ Hrun) as (Hlist & _ & Hnone).
  { repeat constructor. }
  split.
  - apply (Hlist Samples.docker_plugin). left.
  - apply Hnone. intros p Hp.
    apply elem_of_cons in Hp as [->|Hp];
      [|apply list_elem_of_singleton in Hp as ->]; done.
Defined.

(** *** Listing *)

Lemma foldl_snoc {A B : Type} (f : A → B) (l : list A) : ∀ acc : list B,
  foldl (λ acc x, acc ++ [f x]) acc l = acc ++ (f <$> l).
Proof.
  induction l as [|x l IH]; intros acc; simpl.
  - by rewrite app_nil_r.
  - rewrite IH. by rewrite <- app_assoc.
Qed.

Lemma List_values o r : List o r = (range o (plugins r)).*2.
Proof. unfold List. by rewrite (foldl_snoc snd). Qed.

Lemma registered_NoDup ps : ∀ r registered errs r',
  holds_exactly r registered →
  RegisterEach r ps = (errs, r') →
  Forall (λ err, err = None) errs →
  NoDup (Name <$> registered) →
  NoDup (Name <$> (registered ++ ps)).
Proof.
  induction ps as [|p ps IH]; intros r registered errs r' Hinv Hrun Hok Hnd.
  - by rewrite app_nil_r.
  - cbn [RegisterEach] in Hrun.
    destruct (Register r (Some p)) as [err r1] eqn:Hreg.
    destruct (RegisterEach r1 ps) as [errs' r2] eqn:Hrest.
    injection Hrun as <- <-. apply Forall_cons in Hok as [-> Hok].
    replace (registered ++ p :: ps) with ((registered ++ [p]) ++ ps)
      by (by rewrite <- app_assoc).
    apply (IH r1 _ errs' r2); [|done|done|].
    { by apply (holds_exactly_Register r). }
    rewrite fmap_app. apply NoDup_app. split_and!; [done| |apply NoDup_singleton].
    intros n Hn Hn'. apply list_elem_of_singleton in Hn'. subst n.
    apply list_elem_of_fmap in Hn as (q & Hq & Hin).
    destruct Hinv as (_ & I2 & _).
    apply Register_success in Hreg as (_ & Hpn & _).
    pose proof (I2 q Hin) as Hl. rewrite <- Hq in Hl. congruence.
Qed.

(** X4.  After a run of successful registrations, [List] returns the registered
    plugins, each once, in some order. *)
Theorem List_registered o ps errs r :
  RegisterEach NewRegistry ps = (errs, r) →
  Forall (λ err, err = None) errs →
  List o r ≡ₚ ps.
Proof.
  intros Hrun Hok.
  pose proof (registered_holds_exactly ps errs r Hrun Hok) as (I1 & I2 & _).
  rewrite List_values. unfold range.
  rewrite (visit_perm o Plugin (map_to_list (plugins r))).
  apply NoDup_Permutation.
  - apply NoDup_fmap_2_strong; [|apply NoDup_map_to_list].
    intros [k1 x1] [k2 x2] H1 H2 Heq. simpl in Heq. subst x2.
    apply elem_of_map_to_list in H1, H2.
    destruct (I1 _ _ H1) as [_ <-]. by destruct (I1 _ _ H2) as [_ <-].
  - apply (NoDup_fmap_1 Name).
    change ps with ([] ++ ps).
    apply (registered_NoDup ps NewRegistry [] errs r holds_exactly_new Hrun Hok).
    apply NoDup_nil_2.
  - intros p. split.
    + intros ([k x] & -> & Hin)%list_elem_of_fmap.
      apply elem_of_map_to_list in Hin. by destruct (I1 _ _ Hin).
    + intros Hp. apply list_elem_of_fmap. exists (Name p, p).
      split; [done|]. apply elem_of_map_to_list. by apply I2.
Qed.

Lemma List_registered_witness :
  List reversed Samples.two_plugins ≡ₚ [Samples.docker_plugin; Samples.git_plugin].
Proof.
  apply (List_registered reversed _ [None; None]).
  - vm_compute. reflexivity.
  - repeat constructor.
Defined.

(** *** Loading *)

Lemma load_loop_loaded {W : Type} (h : Hooks W) cfg entries : ∀ w w',
  load_loop h cfg entries w = (None, w') ↔ loaded h cfg entries w w'.
Proof.
  induction entries as [|[n q] entries IH]; intros w w'; cbn [load_loop].
  - split.
    + intros [= <-]. constructor.
    + intros Hrun. by inversion Hrun.
  - split.
    + intros Hloop.
      destruct (Configure h q cfg w) as [[err|] w1] eqn:Hconf; [done|].
      destruct (RegisterCommands h q w1) as [[err|] w2] eqn:Hreg; [done|].
      apply (loaded_cons h cfg n q entries w w1 w2 w' Hconf Hreg).
      by apply IH.
    + intros Hrun. inversion Hrun as [|? ? ? ? w1 w2 ? Hconf Hreg Hrest]; subst.
      rewrite Hconf, Hreg. by apply IH.
Qed.

Lemma load_loop_failed {W : Type} (h : Hooks W) cfg entries : ∀ w err w',
  load_loop h cfg entries w = (Some err, w') →
  ∃ before name p after w0,
    entries = before ++ (name, p) :: after
    ∧ loaded h cfg before w w0
    ∧ ((∃ inner, Configure h p cfg w0 = (Some inner, w')
                 ∧ err = wrap "failed to configure plugin " name inner)
       ∨ (∃ w1 inner, Configure h p cfg w0 = (None, w1)
                      ∧ RegisterCommands h p w1 = (Some inner, w')
                      ∧ err = wrap "failed to register plugin " name inner)).
Proof.
  induction entries as [|[n q] entries IH]; intros w err w' Hloop; [done|].
  cbn [load_loop] in Hloop.
  destruct (Configure h q cfg w) as [[inner|] w1] eqn:Hconf.
  { injection Hloop as <- <-. exists [], n, q, entries, w.
    split_and!; [done | constructor |]. left. by exists inner. }
  destruct (RegisterCommands h q w1) as [[inner|] w2] eqn:Hreg.
  { injection Hloop as <- <-. exists [], n, q, entries, w.
    split_and!; [done | constructor |]. right. by exists w1, inner. }
  destruct (IH w2 err w' Hloop)
    as (before & name & p & after & w0 & -> & Hbefore & Hcase).
  exists ((n, q) :: before), name, p, after, w0.
  split_and!; [done | | done].
  by apply (loaded_cons h cfg n q before w w1 w2 w0).
Qed.

(** X5.  [LoadAll], whatever the order in which the plugins are visited.
    The plugins visited are the registered ones, each once.  [LoadAll]
    returns nil and the state [w'] exactly when, starting in the state it
    was given, each visited plugin in turn was configured (with the
    configuration of the registry) and then registered without error, every
    call starting in the state that the call before it left, and the last
    call left [w'].  When it returns an error, the plugins visited before
    the failing one were all configured and registered in this way, the
    error is that of the [Configure] call of the failing plugin, or of its
    [Register] call after a successful [Configure], wrapped with the phase
    and the name of the plugin, and the state returned is the one that the
    failing call left: what the earlier plugins did is kept, and no later
    plugin is called. *)
Theorem LoadAll_outcome {W : Type} o (h : Hooks W) r (w : W) :
  (∀ name p, (name, p) ∈ range o (plugins r) ↔ plugins r !! name = Some p)
  ∧ NoDup (range o (plugins r)).*1
  ∧ (∀ w', LoadAll o h r w = (None, w')
           ↔ loaded h (config r) (range o (plugins r)) w w')
  ∧ (∀ err w', LoadAll o h r w = (Some err, w') →
       ∃ before name p after w0,
         range o (plugins r) = before ++ (name, p) :: after
         ∧ loaded h (config r) before w w0
         ∧ ((∃ inner, Configure h p (config r) w0 = (Some inner, w')
                      ∧ err = wrap "failed to configure plugin " name inner)
            ∨ (∃ w1 inner, Configure h p (config r) w0 = (None, w1)
                           ∧ RegisterCommands h p w1 = (Some inner, w')
                           ∧ err = wrap "failed to register plugin " name inner))).
Proof.
  unfold LoadAll. split_and!.
  - intros name p. apply elem_of_range.
  - apply NoDup_range_keys.
  - intros w'. apply load_loop_loaded.
  - intros err w'. apply load_loop_failed.
Qed.

Lemma LoadAll_outcome_witness :
  loaded (Samples.logging_hooks []) (config Samples.two_plugins)
    (range reversed (plugins Samples.two_plugins)) []
    (LoadAll reversed (Samples.logging_hooks []) Samples.two_plugins []).2
  ∧ ∃ before name p after w0,
      range reversed (plugins Samples.two_plugins) = before ++ (name, p) :: after
      ∧ loaded (Samples.logging_hooks ["git"]) (config Samples.two_plugins) before [] w0
      ∧ ((∃ inner,
            Configure (Samples.logging_hooks ["git"]) p (config Samples.two_plugins) w0
            = (Some inner,
               (LoadAll reversed (Samples.logging_hooks ["git"])
                  Samples.two_plugins []).2)
            ∧ wrap "failed to register plugin " "git"
                (Errorf "command tree is read-only")
              = wrap "failed to configure plugin " name inner)
         ∨ (∃ w1 inner,
              Configure (Samples.logging_hooks ["git"]) p (config Samples.two_plugins) w0
              = (None, w1)
              ∧ RegisterCommands (Samples.logging_hooks ["git"]) p w1
                = (Some inner,
                   (LoadAll reversed (Samples.logging_hooks ["git"])
                      Samples.two_plugins []).2)
              ∧ wrap "failed to register plugin " "git"
                  (Errorf "command tree is read-only")
                = wrap "failed to register plugin " name inner)).
Proof.
  split.
  - destruct (LoadAll_outcome reversed (Samples.logging_hooks [])
                Samples.two_plugins []) as (_ & _ & Hok & _).
    apply Hok. vm_compute. reflexivity.
  - destruct (LoadAll_outcome reversed (Samples.logging_hooks ["git"])
                Samples.two_plugins []) as (_ & _ & _ & Hfail).
    apply Hfail. vm_compute. reflexivity.
Defined.

End plugin_registry_lookups.

(** ** Copying a map entry by entry *)
Section copying.

Lemma copy_loop_lookup {V : Type} (entries : list (string * V)) :
  ∀ (result : gmap string V) k,
    NoDup entries.*1 →
    foldl (λ result entry, <[entry.1 := entry.2]> result) result entries !! k
    = match list_to_map (M := gmap string V) entries !! k with
      | Some v => Some v
      | None => result !! k
      end.
Proof.
  induction entries as [|[n v] entries IH]; intros result k Hnd; [done|].
  rewrite fmap_cons in Hnd. apply NoDup_cons in Hnd as [Hfresh Hnd].
  cbn [foldl list_to_map foldr fst snd] in *. rewrite (IH _ k Hnd).
  destruct (decide (n = k)) as [->|Hne].
  - rewrite !lookup_insert_eq.
    by rewrite (not_elem_of_list_to_map_1 (M := gmap string) entries k).
  - by rewrite !lookup_insert_ne.
Qed.

(** Filling an empty map with the entries of [m], in any order, gives
    [m]. *)
Lemma copy_loop {V : Type} (o : RangeOrder) (m : gmap string V) :
  foldl (λ result entry, <[entry.1 := entry.2]> result) ∅ (range o m) = m.
Proof.
  apply map_eq. intros k.
  rewrite copy_loop_lookup by apply NoDup_range_keys.
  assert (list_to_map (M := gmap string V) (range o m) = m) as ->.
  { unfold range.
    rewrite (list_to_map_proper (visit o V (map_to_list m)) (map_to_list m)).
    - apply list_to_map_to_list.
    - apply (NoDup_range_keys o m).
    - apply visit_perm. }
  rewrite lookup_empty. by destruct (m !! k).
Qed.

End copying.

(** ** More on the executor provider registry *)
Section executor_registry_updates.
Import Shell.
Implicit Types (r : ExecutorRegistry) (o : RangeOrder) (cmd : Command).
Implicit Types (provider : ExecutorProvider) (e : PluginAwareExecutor).

(** X6.  [Register] accepts a provider exactly when its name is not empty and
    not taken; the registry it leaves returns the provider under its name
    and answers as before for every other name. *)
Theorem Register_then_Get r provider :
  ((Register r (Some provider)).1 = None
   ↔ ProviderName provider ≠ EmptyString
     ∧ providers r !! ProviderName provider = None)
  ∧ (∀ r', Register r (Some provider) = (None, r') →
       Get r' (ProviderName provider) = (Some provider, true)
       ∧ ∀ name, name ≠ ProviderName provider → Get r' name = Get r name).
Proof.
  unfold Register.
  destruct (decide (ProviderName provider = EmptyString)) as [He|He].
  { split; [|done]. simpl. split; [done | by intros [? _]]. }
  destruct (decide (is_Some (providers r !! ProviderName provider))) as [Ht|Ht].
  { split; [|done]. simpl. split; [done|]. intros [_ Hnone].
    rewrite Hnone in Ht. by destruct Ht. }
  apply eq_None_not_Some in Ht. split; [done|].
  intros r' [= <-]. unfold Get. simpl. split.
  - by rewrite lookup_insert_eq.
  - intros name Hne. by rewrite lookup_insert_ne.
Qed.

Lemma Register_then_Get_witness :
  Get (Register Samples.two_providers (Some Samples.failing_provider)).2 "make"
    = (Some Samples.failing_provider, true)
  ∧ Get (Register Samples.two_providers (Some Samples.failing_provider)).2 "docker"
    = Get Samples.two_providers "docker".
Proof.
  destruct (Register_then_Get Samples.two_providers Samples.failing_provider)
    as [_ Hget].
  destruct (Hget (Register Samples.two_providers (Some Samples.failing_provider)).2)
    as [Hnew Hold]; [vm_compute; reflexivity|].
  split; [exact Hnew | by apply Hold].
Defined.

(** X7.  [Unregister] frees a name and nothing else: the name is not found any
    more, every other name answers as before, a provider with that name can
    be registered again, and unregistering a provider that was just
    registered gives back the registry before the registration. *)
Theorem Unregister_frees r name :
  Get (Unregister r name) name = (None, false)
  ∧ (∀ other, other ≠ name → Get (Unregister r name) other = Get r other)
  ∧ (∀ provider, ProviderName provider = name → name ≠ EmptyString →
       (Register (Unregister r name) (Some provider)).1 = None)
  ∧ (∀ provider r', ProviderName provider = name →
       Register r (Some provider) = (None, r') →
       Unregister r' name = r).
Proof.
  unfold Unregister, Get. simpl. split_and!.
  - by rewrite lookup_delete_eq.
  - intros other Hne. by rewrite lookup_delete_ne.
  - intros provider Hn Hne. unfold Register. rewrite Hn.
    rewrite decide_False by done. simpl.
    rewrite decide_False; [done|]. rewrite lookup_delete_eq. by intros [? ?].
  - intros provider r' Hn Hreg. unfold Register in Hreg. rewrite Hn in Hreg.
    destruct (decide (name = EmptyString)); [done|].
    destruct (decide (is_Some (providers r !! name))) as [|Hfree]; [done|].
    injection Hreg as <-. simpl. apply eq_None_not_Some in Hfree.
    rewrite delete_insert_id by done. by destruct r.
Qed.

Lemma Unregister_frees_witness :
  (Register (Unregister Samples.two_providers "docker")
     (Some Samples.docker_impostor)).1 = None
  ∧ Unregister (Register Samples.two_providers (Some Samples.failing_provider)).2
      "make" = Samples.two_providers.
Proof.
  destruct (Unregister_frees Samples.two_providers "docker") as (_ & _ & Hagain & _).
  destruct (Unregister_frees Samples.two_providers "make") as (_ & _ & _ & Hback).
  split.
  - by apply Hagain.
  - apply (Hback Samples.failing_provider); [done|]. vm_compute. reflexivity.
Defined.

(** X8.  [All] returns the provider map itself, in whatever order it is copied;
    after [Clear] the copy is empty, no name is found and no command has a
    provider. *)
Theorem All_copies o r :
  All o r = providers r
  ∧ All o (Clear r) = ∅
  ∧ (∀ name, Get (Clear r) name = (None, false))
  ∧ (∀ cmd, FindProvider o (Clear r) cmd = None).
Proof.
  unfold All. split_and!.
  - apply copy_loop.
  - apply copy_loop.
  - intros name. unfold Get, Clear. simpl. by rewrite lookup_empty.
  - intros cmd. unfold FindProvider. apply find_loop_None.
    intros name provider Hin.
    apply elem_of_range in Hin. simpl in Hin. by rewrite lookup_empty in Hin.
Qed.

Lemma find_exclusive o r cmd name provider :
  providers r !! name = Some provider →
  CanHandle provider cmd = true →
  (∀ name' provider', providers r !! name' = Some provider' →
     CanHandle provider' cmd = true → provider' = provider) →
  find_loop (range o (providers r)) cmd = Some provider.
Proof.
  intros Hl Hcan Hone.
  destruct (find_loop (range o (providers r)) cmd) as [found|] eqn:Hfind.
  - destruct (find_loop_Some _ _ _ Hfind) as [[name' Hin] Hcan'].
    apply elem_of_range in Hin. by rewrite (Hone name' found Hin Hcan').
  - rewrite find_loop_None in Hfind.
    rewrite (Hfind name provider) in Hcan; [done|]. by apply elem_of_range.
Qed.

Lemma find_none o r cmd :
  (∀ name provider, providers r !! name = Some provider →
     CanHandle provider cmd = false) →
  find_loop (range o (providers r)) cmd = None.
Proof.
  intros Hnone. apply find_loop_None.
  intros name provider Hin. apply (Hnone name). by apply elem_of_range in Hin.
Qed.

(** X9.  When one registered provider alone can handle a command, [FindProvider]
    returns it, in whatever order the providers are visited. *)
Theorem FindProvider_exclusive o r cmd name provider :
  providers r !! name = Some provider →
  CanHandle provider cmd = true →
  (∀ name' provider', providers r !! name' = Some provider' →
     CanHandle provider' cmd = true → provider' = provider) →
  FindProvider o r cmd = Some provider.
Proof. apply find_exclusive. Qed.

Lemma FindProvider_exclusive_witness :
  FindProvider reversed Samples.two_providers (NewCommand "docker-compose" ["up"])
  = Some Samples.compose_provider.
Proof.
  apply (FindProvider_exclusive reversed Samples.two_providers _ "compose").
  - vm_compute. reflexivity.
  - vm_compute. reflexivity.
  - intros name' provider' Hl Hcan.
    destruct (decide (name' = "docker")) as [->|Hd].
    { vm_compute in Hl. injection Hl as <-. vm_compute in Hcan. discriminate Hcan. }
    destruct (decide (name' = "compose")) as [->|Hc].
    { vm_compute in Hl. by injection Hl as <-. }
    unfold Samples.two_providers in Hl. simpl in Hl.
    rewrite !lookup_insert_ne in Hl by done. by rewrite lookup_empty in Hl.
Defined.

(** X10.  Routing in [Execute]: a command that no registered provider can handle
    is run by the standard executor; a command that one provider alone can
    handle is run by the executor this provider creates from the options of
    the standard executor, and never by the standard executor. *)
Theorem Execute_routes o e cmd :
  ((∀ name provider, providers (registry e) !! name = Some provider →
      CanHandle provider cmd = false) →
   PAExecute o e cmd = Returns (StdExecute (standardExecutor e) cmd))
  ∧ (∀ name provider,
       providers (registry e) !! name = Some provider →
       CanHandle provider cmd = true →
       (∀ name' provider', providers (registry e) !! name' = Some provider' →
          CanHandle provider' cmd = true → provider' = provider) →
       PAExecute o e cmd
       = match CreateExecutor provider (options (standardExecutor e)) with
         | Some executor => Returns (Execute executor cmd)
         | None => Panics
         end).
Proof.
  unfold PAExecute, FindProvider. split.
  - intros Hnone. by rewrite find_none.
  - intros name provider Hl Hcan Hone.
    by rewrite (find_exclusive o (registry e) cmd name provider).
Qed.

Lemma Execute_routes_witness :
  PAExecute reversed Samples.routed_executor (NewCommand "ls" [])
    = Returns (Samples.exits_with 0 (NewCommand "ls" []))
  ∧ PAExecute reversed Samples.routed_executor (NewCommand "make" [])
    = Returns (Samples.exits_with 2 (NewCommand "make" [])).
Proof.
  assert (∀ name provider,
            providers (registry Samples.routed_executor) !! name = Some provider →
            name = "make" ∧ provider = Samples.failing_provider) as Hone.
  { intros name provider Hl. simpl in Hl.
    destruct (decide (name = "make")) as [->|Hne].
    - rewrite lookup_insert_eq in Hl. by injection Hl as <-.
    - rewrite lookup_insert_ne in Hl by done. by rewrite lookup_empty in Hl. }
  split.
  - apply (proj1 (Execute_routes reversed Samples.routed_executor (NewCommand "ls" []))).
    intros name provider Hl. by destruct (Hone name provider Hl) as [_ ->].
  - apply (proj2 (Execute_routes reversed Samples.routed_executor (NewCommand "make" []))
             "make" Samples.failing_provider).
    + vm_compute. reflexivity.
    + vm_compute. reflexivity.
    + intros name' provider' Hl _. by destruct (Hone name' provider' Hl).
Defined.

(** X11.  [ExecuteWithContext] degrades to [Execute] for providers whose
    executors have no [ExecuteWithContext] method.  Each call ranges over
    the providers in an order of its own; when no executor is context
    aware, a call of [ExecuteWithContext] and a call of [Execute] that
    select the same provider for the command return the same, which is the
    case of every two calls when one provider alone can handle the command.
    When no provider can handle the command, the standard executor runs it
    with the context. *)
Theorem ExecuteWithContext_degrades o o' (s : ContextSupport) e ctx cmd :
  ((∀ executor, asContextAware s executor = None) →
   FindProvider o (registry e) cmd = FindProvider o' (registry e) cmd →
   FindProvider o (registry e) cmd ≠ None →
   ExecuteWithContext o s e ctx cmd = PAExecute o' e cmd)
  ∧ ((∀ executor, asContextAware s executor = None) →
     ∀ name provider,
       providers (registry e) !! name = Some provider →
       CanHandle provider cmd = true →
       (∀ name' provider', providers (registry e) !! name' = Some provider' →
          CanHandle provider' cmd = true → provider' = provider) →
       ExecuteWithContext o s e ctx cmd = PAExecute o' e cmd)
  ∧ ((∀ name provider, providers (registry e) !! name = Some provider →
        CanHandle provider cmd = false) →
     ExecuteWithContext o s e ctx cmd
     = Returns (StdExecuteWithContext s (standardExecutor e) ctx cmd)).
Proof.
  assert ((∀ executor, asContextAware s executor = None) →
          FindProvider o (registry e) cmd = FindProvider o' (registry e) cmd →
          FindProvider o (registry e) cmd ≠ None →
          ExecuteWithContext o s e ctx cmd = PAExecute o' e cmd) as Hsame.
  { unfold ExecuteWithContext, PAExecute. intros Hplain <- Hfound.
    destruct (FindProvider o (registry e) cmd) as [provider|]; [|done].
    destruct (CreateExecutor provider (options (standardExecutor e)))
      as [executor|]; [|done].
    by rewrite Hplain. }
  split_and!.
  - exact Hsame.
  - intros Hplain name provider Hl Hcan Hone. apply Hsame; [done| |].
    + unfold FindProvider.
      rewrite (find_exclusive o (registry e) cmd name provider) by done.
      by rewrite (find_exclusive o' (registry e) cmd name provider).
    + unfold FindProvider.
      by rewrite (find_exclusive o (registry e) cmd name provider).
  - intros Hnone. unfold ExecuteWithContext, FindProvider. by rewrite find_none.
Qed.

Lemma ExecuteWithContext_degrades_witness :
  ExecuteWithContext reversed
    (mkContextSupport (λ _, None) (λ std _ cmd, StdExecute std cmd))
    Samples.routed_executor Sdk.Background (NewCommand "make" [])
  = PAExecute in_order Samples.routed_executor (NewCommand "make" []).
Proof.
  destruct (ExecuteWithContext_degrades reversed in_order
              (mkContextSupport (λ _, None) (λ std _ cmd, StdExecute std cmd))
              Samples.routed_executor Sdk.Background (NewCommand "make" []))
    as (_ & Hone & _).
  apply (Hone (λ _, eq_refl) "make" Samples.failing_provider).
  - vm_compute. reflexivity.
  - vm_compute. reflexivity.
  - intros name' provider' Hl _. simpl in Hl.
    destruct (decide (name' = "make")) as [->|Hne].
    + rewrite lookup_insert_eq in Hl. by injection Hl as <-.
    + rewrite lookup_insert_ne in Hl by done. by rewrite lookup_empty in Hl.
Defined.

End executor_registry_updates.

(** ** More on the context extension registry *)
Section extension_registry_updates.
Import Sdk.
Implicit Types (r : ExtensionRegistry) (o : RangeOrder) (ext : ContextExtension).
Implicit Types (dataMap : gmap string GoValue).

(** X12.  [Register] on the extension registry: an empty name is refused and
    the registry stays as it was; any other extension is stored under its
    name, replacing what was there, and the other names answer as before.
    The last registration wins: registering two extensions of one name in
    turn leaves the registry that registering the second alone leaves. *)
Theorem Register_overrides r ext :
  (Name ext = EmptyString →
     Register r (Some ext) = (Some ErrInvalidExtensionName, r))
  ∧ (Name ext ≠ EmptyString →
       ∃ r', Register r (Some ext) = (None, r')
         ∧ Get r' (Name ext) = (Some ext, true)
         ∧ (∀ name, name ≠ Name ext → Get r' name = Get r name)
         ∧ ∀ ext0, Name ext0 = Name ext →
             (Register (Register r (Some ext0)).2 (Some ext)).2 = r').
Proof.
  unfold Register. split.
  - intros He. by rewrite decide_True.
  - intros Hne. rewrite decide_False by done. eexists. split; [done|].
    unfold Get. simpl. split_and!.
    + by rewrite lookup_insert_eq.
    + intros name Hn. by rewrite lookup_insert_ne.
    + intros ext0 ->. rewrite !decide_False by done. simpl.
      by rewrite insert_insert_eq.
Qed.

Lemma Register_overrides_witness :
  Get (Register Samples.two_extensions (Some Samples.strict_extension)).2 "docker"
  = (Some Samples.strict_extension, true).
Proof.
  destruct (Register_overrides Samples.two_extensions Samples.strict_extension)
    as [_ Hok].
  destruct Hok as (r' & Hreg & Hget & _); [done|].
  rewrite Hreg. exact Hget.
Defined.

(** The result of [DetectAll] under one name. *)
Lemma DetectAll_lookup o r ctx projectRoot name :
  (DetectAll o r ctx projectRoot).1 !! name
  = extensions r !! name ≫= contribution ctx projectRoot.
Proof.
  unfold DetectAll. simpl.
  destruct (extensions r !! name) as [ext|] eqn:Hl; simpl.
  - rewrite (detect_loop_lookup ctx projectRoot _ ∅ name ext).
    + rewrite lookup_empty. by destruct (contribution ctx projectRoot ext).
    + apply NoDup_range_keys.
    + by apply elem_of_range.
  - rewrite detect_loop_other; [done|].
    intros Hin. apply list_elem_of_fmap in Hin as [[n e] [Hn Hin]].
    simpl in Hn. subst n. apply elem_of_range in Hin. congruence.
Qed.

(** X13.  The result of [DetectAll] does not depend on the order in which the
    extensions are visited. *)
Theorem DetectAll_any_order o o' r ctx projectRoot :
  DetectAll o r ctx projectRoot = DetectAll o' r ctx projectRoot.
Proof.
  unfold DetectAll. f_equal. apply map_eq. intros name.
  pose proof (DetectAll_lookup o r ctx projectRoot name) as H1.
  pose proof (DetectAll_lookup o' r ctx projectRoot name) as H2.
  unfold DetectAll in H1, H2. simpl in H1, H2. by rewrite H1, H2.
Qed.

(** X14.  Every value in the result of [DetectAll] is the non-nil data that the
    extension registered under that name detected without error. *)
Theorem DetectAll_values o r ctx projectRoot name data :
  (DetectAll o r ctx projectRoot).1 !! name = Some data →
  data ≠ VNil
  ∧ ∃ ext, extensions r !! name = Some ext
           ∧ Detect ext ctx projectRoot = (data, None).
Proof.
  rewrite DetectAll_lookup.
  destruct (extensions r !! name) as [ext|]; simpl; [|done].
  unfold contribution.
  destruct (Detect ext ctx projectRoot) as [v [err|]] eqn:Hd; [done|].
  intros Hv. assert (v = data ∧ data ≠ VNil) as [-> Hnil].
  { destruct v; simplify_eq; done. }
  split; [done|]. by exists ext.
Qed.

Lemma DetectAll_values_witness :
  Samples.compose_data ≠ VNil
  ∧ ∃ ext, extensions Samples.two_extensions !! "docker" = Some ext
           ∧ Detect ext Background "/srv/app" = (Samples.compose_data, None).
Proof.
  apply (DetectAll_values reversed Samples.two_extensions Background "/srv/app"
           "docker").
  vm_compute. reflexivity.
Defined.

(** X15.  Registering an extension changes the result of [DetectAll] under the
    name of the extension only. *)
Theorem DetectAll_after_Register o r ext r' ctx projectRoot :
  Register r (Some ext) = (None, r') →
  (DetectAll o r' ctx projectRoot).1 !! Name ext = contribution ctx projectRoot ext
  ∧ ∀ name, name ≠ Name ext →
      (DetectAll o r' ctx projectRoot).1 !! name
      = (DetectAll o r ctx projectRoot).1 !! name.
Proof.
  unfold Register. destruct (decide (Name ext = EmptyString)); [done|].
  intros [= <-]. split.
  - rewrite DetectAll_lookup. simpl. by rewrite lookup_insert_eq.
  - intros name Hne. rewrite !DetectAll_lookup. simpl.
    by rewrite lookup_insert_ne.
Qed.

Lemma DetectAll_after_Register_witness :
  (DetectAll reversed
     (Register Samples.two_extensions (Some Samples.strict_extension)).2
     Background "/srv/app").1 !! "docker" = None.
Proof.
  apply (proj1 (DetectAll_after_Register reversed Samples.two_extensions
                  Samples.strict_extension _ Background "/srv/app" eq_refl)).
Defined.

(** X16.  [All] returns the extension map itself, in whatever order it is
    copied. *)
Theorem All_extensions o r : All o r = extensions r.
Proof. apply copy_loop. Qed.

(** *** Merging *)

Lemma merge_body_keys dataMap (result result' : gmap string GoValue) ext name :
  merge_body dataMap result ext = inl result' →
  is_Some (result' !! name)
  ↔ is_Some (result !! name)
    ∨ (name = Name ext ∧ is_Some (dataMap !! name)).
Proof.
  unfold merge_body. intros Hbody.
  assert (is_Some (dataMap !! Name ext) →
          (∃ v, result' = <[Name ext := v]> result)) as Hset.
  { intros [incoming Hdata]. rewrite Hdata in Hbody.
    destruct (result !! Name ext) as [existing|].
    - destruct (Merge ext existing incoming) as [merged [err|]]; simplify_eq.
      by exists merged.
    - simplify_eq. by exists incoming. }
  assert (dataMap !! Name ext = None → result' = result) as Hkeep.
  { intros Hdata. rewrite Hdata in Hbody.
    destruct (result !! Name ext); by simplify_eq. }
  destruct (dataMap !! Name ext) as [incoming|] eqn:Hdata.
  - destruct Hset as [v ->]; [by eexists|].
    destruct (decide (name = Name ext)) as [->|Hne].
    + rewrite lookup_insert_eq, Hdata. split; [intros _; right | ]; eauto.
    + rewrite lookup_insert_ne by done. split; [by left|].
      intros [?|[? _]]; done.
  - rewrite Hkeep by done. split; [by left|].
    intros [?|[-> Hd]]; [done|]. rewrite Hdata in Hd. by destruct Hd.
Qed.

Lemma merge_loop_keys dataMap (exts : list ContextExtension) name :
  ∀ result result' : gmap string GoValue,
    merge_loop dataMap exts result = inl result' →
    is_Some (result' !! name)
    ↔ is_Some (result !! name)
      ∨ (name ∈ Name <$> exts ∧ is_Some (dataMap !! name)).
Proof.
  induction exts as [|ext exts IH]; intros result result' Hloop;
    cbn [merge_loop] in Hloop.
  - injection Hloop as <-. split; [by left|].
    intros [?|[Hin _]]; [done | inversion Hin].
  - destruct (merge_body dataMap result ext) as [result1|] eqn:Hbody; [|done].
    rewrite (IH result1 result' Hloop).
    rewrite (merge_body_keys dataMap result result1 ext name Hbody).
    rewrite fmap_cons, elem_of_cons. tauto.
Qed.

(** X17.  The keys of the result of [MergeExtensionData] are the names of the
    listed extensions that [dataMap] holds: data under a name that no
    listed extension bears is left out, and no key is made up. *)
Theorem MergeExtensionData_keys exts dataMap (result : gmap string GoValue) name :
  MergeExtensionData exts dataMap = (Some result, None) →
  is_Some (result !! name)
  ↔ name ∈ Name <$> exts ∧ is_Some (dataMap !! name).
Proof.
  intros Hloop%MergeExtensionData_inl.
  rewrite (merge_loop_keys dataMap exts name ∅ result Hloop).
  rewrite lookup_empty. split; [|by right].
  intros [[? ?]|?]; done.
Qed.

Lemma MergeExtensionData_keys_witness :
  is_Some ((<["docker" := Samples.compose_data]> (∅ : gmap string GoValue)) !! "docker")
  ↔ "docker" ∈ Name <$> [Samples.docker_extension]
    ∧ is_Some (Samples.docker_data !! "docker").
Proof.
  apply (MergeExtensionData_keys [Samples.docker_extension] Samples.docker_data).
  vm_compute. reflexivity.
Defined.

(** X18.  When the listed extensions have distinct names, [MergeExtensionData]
    calls no [Merge] and cannot fail: the result is [dataMap] cut down to
    the names of the listed extensions. *)
Theorem MergeExtensionData_without_merge exts dataMap :
  NoDup (Name <$> exts) →
  ∃ result, MergeExtensionData exts dataMap = (Some result, None)
    ∧ ∀ name, result !! name
              = if decide (name ∈ Name <$> exts) then dataMap !! name else None.
Proof.
  intros Hnd.
  destruct (merge_loop_distinct dataMap exts ∅ Hnd) as (result & Hloop & Hres).
  { intros ext _. apply lookup_empty. }
  exists result. split; [by apply MergeExtensionData_inl|].
  intros name. rewrite Hres. by rewrite lookup_empty.
Qed.

Lemma MergeExtensionData_without_merge_witness :
  ∃ result,
    MergeExtensionData [Samples.docker_extension; Samples.broken_extension]
      Samples.docker_data = (Some result, None)
    ∧ ∀ name, result !! name
              = if decide (name ∈ Name <$> [Samples.docker_extension;
                                            Samples.broken_extension])
                then Samples.docker_data !! name else None.
Proof.
  apply MergeExtensionData_without_merge.
  simpl. apply NoDup_cons. split; [|apply NoDup_singleton].
  by intros ?%list_elem_of_singleton.
Defined.

(** X19.  An extension listed a second time is merged with itself: both arguments
    of its [Merge] are the value that [dataMap] holds under its name. *)
Theorem MergeExtensionData_twice ext1 ext2 dataMap data :
  Name ext1 = Name ext2 →
  dataMap !! Name ext2 = Some data →
  MergeExtensionData [ext1; ext2] dataMap
  = match Merge ext2 data data with
    | (merged, None) => (Some (<[Name ext2 := merged]> ∅), None)
    | (_, Some err) => (None, Some err)
    end.
Proof.
  intros Hname Hdata. unfold MergeExtensionData. cbn [merge_loop].
  assert (merge_body dataMap ∅ ext1 = inl (<[Name ext2 := data]> ∅)) as ->.
  { unfold merge_body. by rewrite Hname, lookup_empty, Hdata. }
  unfold merge_body. rewrite lookup_insert_eq, Hdata.
  destruct (Merge ext2 data data) as [merged [err|]]; [done|].
  by rewrite insert_insert_eq.
Qed.

Lemma MergeExtensionData_twice_witness :
  MergeExtensionData [Samples.docker_extension; Samples.strict_extension]
    Samples.docker_data = (None, Some (Errorf "merge refused")).
Proof.
  apply (MergeExtensionData_twice Samples.docker_extension Samples.strict_extension
           Samples.docker_data Samples.compose_data); reflexivity.
Defined.

End extension_registry_updates.

(** ** More on the compatibility layer *)
Section compatibility_frames.
Import Ctx.
Implicit Types (ctx : ProjectContext) (dockerCtx : gmap string GoValue).

Lemma populate_from_frame dockerCtx ctx :
  ProjectRoot (populate_from dockerCtx ctx) = ProjectRoot ctx
  ∧ WorkingDir (populate_from dockerCtx ctx) = WorkingDir ctx
  ∧ DevelopmentMode (populate_from dockerCtx ctx) = DevelopmentMode ctx
  ∧ Location (populate_from dockerCtx ctx) = Location ctx
  ∧ Error (populate_from dockerCtx ctx) = Error ctx.
Proof.
  unfold populate_from.
  destruct (as_string_slice _), (as_string _), (as_bool _), (as_status_map _);
    by destruct ctx.
Qed.

(** X20.  [PopulateCompatibilityFields] writes the four legacy fields and nothing
    else, and each of them only when its key of the docker entry holds a
    value of the type of the field: a key that is absent or of another
    type, a docker entry that is absent or not a map, or a nil extension
    map leave the field as it was. *)
Theorem Populate_fields ctx :
  ComposeFiles (PopulateCompatibilityFields ctx)
    = default (ComposeFiles ctx) (as_string_slice (docker_value ctx "compose_files"))
  ∧ ComposeOverride (PopulateCompatibilityFields ctx)
    = default (ComposeOverride ctx) (as_string (docker_value ctx "compose_override"))
  ∧ DockerRunning (PopulateCompatibilityFields ctx)
    = default (DockerRunning ctx) (as_bool (docker_value ctx "docker_running"))
  ∧ ContainersStatus (PopulateCompatibilityFields ctx)
    = default (ContainersStatus ctx)
        (as_status_map (docker_value ctx "containers_status"))
  ∧ Extensions (PopulateCompatibilityFields ctx) = Extensions ctx
  ∧ ProjectRoot (PopulateCompatibilityFields ctx) = ProjectRoot ctx
  ∧ WorkingDir (PopulateCompatibilityFields ctx) = WorkingDir ctx
  ∧ DevelopmentMode (PopulateCompatibilityFields ctx) = DevelopmentMode ctx
  ∧ Location (PopulateCompatibilityFields ctx) = Location ctx
  ∧ Error (PopulateCompatibilityFields ctx) = Error ctx.
Proof.
  rewrite Populate_unfold. unfold docker_value.
  destruct (Extensions ctx) as [exts|] eqn:Hexts; simpl; [|by rewrite Hexts].
  destruct (as_map (exts !! "docker")) as [dockerCtx|]; simpl; [|by rewrite Hexts].
  destruct (populate_from_fields dockerCtx ctx) as (-> & -> & -> & -> & ->).
  destruct (populate_from_frame dockerCtx ctx) as (-> & -> & -> & -> & ->).
  by rewrite Hexts.
Qed.

(** X21.  [UpdateExtensionsFromCompatibility] leaves the legacy fields and every
    extension other than ["docker"] as they were.  When no legacy field
    holds data, the docker entry is untouched too; when one does, the
    docker entry is replaced by a map of tracked keys only: whatever other
    key it held is gone. *)
Theorem Update_replaces_docker ctx :
  (ComposeFiles (UpdateExtensionsFromCompatibility ctx) = ComposeFiles ctx
   ∧ ComposeOverride (UpdateExtensionsFromCompatibility ctx) = ComposeOverride ctx
   ∧ DockerRunning (UpdateExtensionsFromCompatibility ctx) = DockerRunning ctx
   ∧ ContainersStatus (UpdateExtensionsFromCompatibility ctx) = ContainersStatus ctx)
  ∧ (∀ name, name ≠ "docker" →
       Extensions (UpdateExtensionsFromCompatibility ctx) ≫= (.!! name)
       = Extensions ctx ≫= (.!! name))
  ∧ (hasDockerData ctx = false →
       Extensions (UpdateExtensionsFromCompatibility ctx)
       = Some (default ∅ (Extensions ctx)))
  ∧ (hasDockerData ctx = true →
       ∀ key, key ∉ tracked_keys →
         docker_value (UpdateExtensionsFromCompatibility ctx) key = None).
Proof.
  rewrite Update_unfold. unfold updated_extensions.
  split; [done|]. split; [|split].
  - intros name Hne. simpl.
    destruct (hasDockerData ctx).
    + rewrite lookup_insert_ne by done. destruct (Extensions ctx); [done|].
      simpl. by rewrite lookup_empty.
    + destruct (Extensions ctx); [done|]. simpl. by rewrite lookup_empty.
  - by intros ->.
  - intros -> key Hkey. unfold docker_value. simpl.
    rewrite lookup_insert_eq. simpl.
    unfold tracked_keys in Hkey.
    repeat (apply not_elem_of_cons in Hkey as [? Hkey]).
    unfold dockerCtx_of.
    destruct (bool_decide (0 < length (ComposeFiles ctx)));
      destruct (bool_decide (ComposeOverride ctx ≠ EmptyString));
      destruct (bool_decide (0 < size (ContainersStatus ctx)));
      repeat (rewrite lookup_insert_ne by done); apply lookup_empty.
Qed.

Lemma Update_replaces_docker_witness :
  docker_value
    (UpdateExtensionsFromCompatibility
       (PopulateCompatibilityFields Samples.full_ctx)) "network" = None
  ∧ docker_value (PopulateCompatibilityFields Samples.full_ctx) "network"
    = Some (VString "bridge").
Proof.
  split; [|vm_compute; reflexivity].
  apply (proj2 (proj2 (proj2 (Update_replaces_docker
                                (PopulateCompatibilityFields Samples.full_ctx))))).
  - vm_compute. reflexivity.
  - unfold tracked_keys. intros Hin.
    repeat (apply elem_of_cons in Hin as [Hin|Hin]; [discriminate Hin|]).
    inversion Hin.
Defined.

(** X22.  The round trip from the legacy fields: when a legacy field holds data,
    [UpdateExtensionsFromCompatibility] writes a docker entry from which
    [PopulateCompatibilityFields] reads the legacy fields back as they
    are, so the second call changes nothing. *)
Theorem Update_then_Populate ctx :
  hasDockerData ctx = true →
  PopulateCompatibilityFields (UpdateExtensionsFromCompatibility ctx)
  = UpdateExtensionsFromCompatibility ctx.
Proof.
  intros Hhas. rewrite Populate_unfold, Update_unfold.
  unfold updated_extensions. rewrite Hhas. cbn [Extensions set_Extensions].
  rewrite lookup_insert_eq. cbn [as_map].
  destruct (dockerCtx_of_lookup ctx) as (L1 & L2 & L3 & L4).
  unfold populate_from. rewrite L1, L2, L3, L4.
  destruct ctx as [root wd mode loc exts files override running status err].
  cbn [ComposeFiles ComposeOverride DockerRunning ContainersStatus Extensions].
  destruct (bool_decide (0 < length files));
    destruct (bool_decide (override ≠ EmptyString));
    destruct (bool_decide (0 < size status)); done.
Qed.

Lemma Update_then_Populate_witness :
  PopulateCompatibilityFields
    (UpdateExtensionsFromCompatibility
       (mkProjectContext "/srv/app" "/srv/app" "single-repo" "project"
          None ["a.yml"] EmptyString true ∅ None))
  = UpdateExtensionsFromCompatibility
      (mkProjectContext "/srv/app" "/srv/app" "single-repo" "project"
         None ["a.yml"] EmptyString true ∅ None).
Proof. apply Update_then_Populate. vm_compute. reflexivity. Defined.

End compatibility_frames.

(** ** Configuration schemas *)
Section configuration.
Import SdkConfig.
Implicit Types (schema : ConfigSchema) (field : FieldSchema).
Implicit Types (data : gmap string ConfigValue) (value : ConfigValue).

Lemma validate_fields_inner (nested : list FieldSchema) nestedData :
  (fix validate_fields (fields : list FieldSchema) :=
     match fields with
     | [] => []
     | f :: rest => validate_field f nestedData ++ validate_fields rest
     end) nested
  = validate_fields nested nestedData.
Proof.
  induction nested as [|f rest IH]; [done|].
  cbn [validate_fields]. by rewrite <- IH.
Qed.

(** The errors of one field, with the nested call of [ValidateConfig]. *)
Lemma validate_field_unfold field data :
  validate_field field data
  = match data !! FieldName field with
    | None =>
        if FieldRequired field
        then [{| Field := FieldName field; Message := "required field is missing" |}]
        else []
    | Some value =>
        (if validateType (FieldType field) value then []
         else [{| Field := FieldName field;
                  Message := "invalid type: expected " +:+ FieldType field |}])
        ++ (if bool_decide (FieldType field = "object")
               && bool_decide (0 < length (Nested field))
            then match value with
                 | CObject objValue =>
                     prefixed (FieldName field)
                       (ValidateConfig (nestedSchema field) objValue)
                 | _ => []
                 end
            else [])
    end.
Proof.
  destruct field as [name ty desc required dflt validation nested].
  cbn [validate_field FieldName FieldRequired FieldType Nested].
  destruct (data !! name) as [value|]; [|done].
  f_equal. destruct (bool_decide (ty = "object") && _); [|done].
  destruct value as [| | | | | |objValue|]; try done.
  f_equal. unfold ValidateConfig, nestedSchema. cbn [Required Fields].
  destruct objValue as [nestedData|]; [|done].
  apply validate_fields_inner.
Qed.

Lemma object_with_nested field :
  bool_decide (FieldType field = "object")
  && bool_decide (0 < length (Nested field)) = true
  ↔ FieldType field = "object" ∧ Nested field ≠ [].
Proof.
  rewrite andb_true_iff, !bool_decide_eq_true.
  destruct (Nested field); simpl; split; intros [? ?]; split; (done || lia).
Qed.

Lemma validate_fields_elem fields data e :
  e ∈ validate_fields fields data
  ↔ ∃ field, field ∈ fields ∧ e ∈ validate_field field data.
Proof.
  induction fields as [|f rest IH]; cbn [validate_fields].
  - split; [intros H; inversion H | intros (field & H & _); inversion H].
  - rewrite elem_of_app, IH. split.
    + intros [H|(field & Hin & H)].
      * exists f. split; [left | done].
      * exists field. split; [by right | done].
    + intros (field & Hin & H). apply elem_of_cons in Hin as [->|Hin].
      * by left.
      * right. by exists field.
Qed.

Lemma validate_fields_nil fields data :
  validate_fields fields data = []
  ↔ ∀ field, field ∈ fields → validate_field field data = [].
Proof.
  induction fields as [|f rest IH]; cbn [validate_fields].
  - split; [intros _ field H; inversion H | done].
  - split.
    + intros [Hf Hrest]%app_eq_nil field Hin.
      apply elem_of_cons in Hin as [->|Hin]; [done|]. by apply IH.
    + intros H. rewrite (H f) by left. simpl. apply IH.
      intros field Hin. apply H. by right.
Qed.

(** X23.  A required field that the data does not hold is reported, under the
    name of the field. *)
Theorem ValidateConfig_reports_missing schema data field :
  field ∈ Fields schema →
  FieldRequired field = true →
  data !! FieldName field = None →
  {| Field := FieldName field; Message := "required field is missing" |}
    ∈ ValidateConfig schema (Some data).
Proof.
  intros Hin Hreq Hmiss. unfold ValidateConfig.
  apply validate_fields_elem. exists field. split; [done|].
  rewrite validate_field_unfold, Hmiss, Hreq. left.
Qed.

Lemma ValidateConfig_reports_missing_witness :
  {| Field := "target"; Message := "required field is missing" |}
    ∈ ValidateConfig (mkConfigSchema "build" Samples.build_fields EmptyString false)
        (Some ∅).
Proof.
  apply (ValidateConfig_reports_missing
           (mkConfigSchema "build" Samples.build_fields EmptyString false) ∅
           (mkFieldSchema "target" "string" "build target" true CNil EmptyString [])).
  - left.
  - reflexivity.
  - reflexivity.
Defined.

(** X24.  When [ValidateConfig] reports nothing.  For the nil map: exactly when
    the section is not required.  For a map: exactly when, for every field
    of the schema, either the map has no value for it and the field is not
    required, or it has one that passes [validateType] and, if the field is
    an object with nested fields and the value is a map, the nested schema
    reports nothing on that map. *)
Theorem ValidateConfig_clean_iff schema :
  (ValidateConfig schema None = [] ↔ Required schema = false)
  ∧ ∀ data,
      ValidateConfig schema (Some data) = []
      ↔ ∀ field, field ∈ Fields schema →
          match data !! FieldName field with
          | None => FieldRequired field = false
          | Some value =>
              validateType (FieldType field) value = true
              ∧ (FieldType field = "object" → Nested field ≠ [] →
                 ∀ objValue, value = CObject objValue →
                   ValidateConfig (nestedSchema field) objValue = [])
          end.
Proof.
  split.
  - unfold ValidateConfig. by destruct (Required schema).
  - intros data. unfold ValidateConfig at 1. rewrite validate_fields_nil.
    apply forall_proper. intros field. apply forall_proper. intros Hin.
    rewrite validate_field_unfold.
    destruct (data !! FieldName field) as [value|].
    + destruct (validateType (FieldType field) value); simpl.
      * destruct (bool_decide (FieldType field = "object") && _) eqn:Hb.
        -- apply object_with_nested in Hb as [Hty Hn]. split.
           ++ intros Hnil. split; [done|]. intros _ _ objValue ->.
              unfold prefixed in Hnil. by apply fmap_nil_inv in Hnil.
           ++ intros [_ Hnested].
              destruct value as [| | | | | |objValue|]; try done.
              rewrite (Hnested Hty Hn objValue eq_refl). done.
        -- split; [|done]. intros _. split; [done|].
           intros Hty Hn. assert (true = false); [|done].
           rewrite <- Hb. symmetry. by apply object_with_nested.
      * split; [done|]. by intros [? _].
    + by destruct (FieldRequired field).
Qed.

Lemma ValidateConfig_clean_iff_witness :
  ValidateConfig Samples.docker_schema None ≠ []
  ∧ ValidateConfig Samples.docker_schema (Some Samples.docker_config) ≠ [].
Proof.
  destruct (ValidateConfig_clean_iff Samples.docker_schema) as [Hnil Hdata].
  split.
  - intros Hclean%Hnil. discriminate Hclean.
  - intros Hclean.
    pose proof (proj1 (Hdata Samples.docker_config) Hclean
                  (mkFieldSchema "port" "int" "published port" true CNil
                     EmptyString [])) as Hport.
    assert (validateType "int" (CString "8080") = true) as Hty.
    { apply Hport. right. left. }
    discriminate Hty.
Defined.

(** X25.  A value that is nil satisfies any field: data that holds every field
    of the schema with a nil value is reported clean, whatever the types
    and whether the fields are required. *)
Theorem ValidateConfig_accepts_nil schema data :
  (∀ field, field ∈ Fields schema → data !! FieldName field = Some CNil) →
  ValidateConfig schema (Some data) = [].
Proof.
  intros Hnil. unfold ValidateConfig. apply validate_fields_nil.
  intros field Hin. rewrite validate_field_unfold, (Hnil field Hin).
  by destruct (bool_decide (FieldType field = "object") && _).
Qed.

Lemma ValidateConfig_accepts_nil_witness :
  ValidateConfig (mkConfigSchema "build" Samples.build_fields EmptyString false)
    (Some (<["target" := CNil]> (<["cache" := CNil]> ∅))) = [].
Proof.
  apply ValidateConfig_accepts_nil. intros field Hin.
  apply elem_of_cons in Hin as [->|Hin];
    [|apply list_elem_of_singleton in Hin as ->]; reflexivity.
Defined.

(** X26.  Every error carries the name of the field of the schema that it comes
    from: the name itself, or the name, a dot and the path of the error
    within the nested fields. *)
Theorem ValidateConfig_error_field schema data e :
  e ∈ ValidateConfig schema (Some data) →
  ∃ field, field ∈ Fields schema
    ∧ (Field e = FieldName field
       ∨ ∃ e', Field e = FieldName field +:+ "." +:+ Field e'
               ∧ Message e = Message e'
               ∧ ∃ objValue, data !! FieldName field = Some (CObject objValue)
                   ∧ e' ∈ ValidateConfig (nestedSchema field) objValue).
Proof.
  unfold ValidateConfig at 1. intros (field & Hin & He)%validate_fields_elem.
  exists field. split; [done|].
  rewrite validate_field_unfold in He.
  destruct (data !! FieldName field) as [value|].
  - apply elem_of_app in He as [He|He].
    + destruct (validateType (FieldType field) value); [inversion He|].
      apply list_elem_of_singleton in He as ->. by left.
    + destruct (bool_decide (FieldType field = "object") && _); [|inversion He].
      destruct value as [| | | | | |objValue|]; try by inversion He.
      unfold prefixed in He. apply list_elem_of_fmap in He as (e' & -> & He').
      right. exists e'. split_and!; try done. by exists objValue.
  - destruct (FieldRequired field); [|inversion He].
    apply list_elem_of_singleton in He as ->. by left.
Qed.

Lemma ValidateConfig_error_field_witness :
  ∃ field, field ∈ Fields Samples.docker_schema
    ∧ ("build.target" = FieldName field
       ∨ ∃ e', "build.target" = FieldName field +:+ "." +:+ Field e'
               ∧ "required field is missing" = Message e'
               ∧ ∃ objValue, Samples.docker_config !! FieldName field
                             = Some (CObject objValue)
                   ∧ e' ∈ ValidateConfig (nestedSchema field) objValue).
Proof.
  apply (ValidateConfig_error_field Samples.docker_schema Samples.docker_config
           {| Field := "build.target"; Message := "required field is missing" |}).
  vm_compute. right. left.
Defined.

(** *** Defaults *)

Lemma apply_fields_inner (nested : list FieldSchema) : ∀ nestedData,
  (fix apply_fields (fields : list FieldSchema)
       (nestedData : gmap string ConfigValue) :=
     match fields with
     | [] => nestedData
     | f :: rest => apply_fields rest (apply_field f nestedData)
     end) nested nestedData
  = foldl (λ data field, apply_field field data) nestedData nested.
Proof. induction nested as [|f rest IH]; intros nestedData; [done | apply IH]. Qed.

Lemma apply_field_unfold field data :
  apply_field field data
  = if bool_decide (FieldType field = "object")
       && bool_decide (0 < length (Nested field))
    then match with_default field data !! FieldName field with
         | Some (CObject objValue) =>
             <[FieldName field :=
                 CObject (Some (ApplyDefaults (nestedSchema field) objValue))]>
               (with_default field data)
         | _ => with_default field data
         end
    else with_default field data.
Proof.
  destruct field as [name ty desc required dflt validation nested].
  cbn [apply_field FieldName FieldType Nested]. unfold with_default.
  cbn [FieldName Default].
  destruct (bool_decide (ty = "object") && _); [|done].
  set (data1 := match data !! name with Some _ => _ | None => _ end).
  destruct (data1 !! name) as [[| | | | | |objValue|]|]; try done.
  f_equal. f_equal. f_equal. apply apply_fields_inner.
Qed.

Lemma with_default_keys field data k :
  is_Some (with_default field data !! k)
  ↔ is_Some (data !! k) ∨ (k = FieldName field ∧ Default field ≠ CNil).
Proof.
  unfold with_default.
  destruct (data !! FieldName field) as [old|] eqn:Hold.
  { split; [by left|]. intros [?|[-> _]]; [done|]. rewrite Hold. eauto. }
  destruct (decide (k = FieldName field)) as [->|Hne].
  - destruct (Default field) eqn:Hd;
      rewrite ?lookup_insert_eq, ?Hold;
      (split; [intros [? ?]; try done; right; done | intros [[? ?]|[_ ?]]; done || eauto]).
  - destruct (Default field); rewrite ?lookup_insert_ne by done;
      (split; [by left | intros [?|[? _]]; done]).
Qed.

Lemma with_default_keeps field data k v :
  data !! k = Some v → with_default field data !! k = Some v.
Proof.
  intros Hk. unfold with_default.
  destruct (data !! FieldName field) as [old|] eqn:Hold; [done|].
  assert (FieldName field ≠ k) by (intros <-; congruence).
  destruct (Default field); by rewrite ?lookup_insert_ne.
Qed.

Lemma apply_field_keys field data k :
  is_Some (apply_field field data !! k)
  ↔ is_Some (data !! k) ∨ (k = FieldName field ∧ Default field ≠ CNil).
Proof.
  rewrite apply_field_unfold, <- with_default_keys.
  destruct (bool_decide (FieldType field = "object") && _); [|done].
  destruct (with_default field data !! FieldName field)
    as [[| | | | | |objValue|]|] eqn:Hv; try done.
  destruct (decide (k = FieldName field)) as [->|Hne].
  - rewrite lookup_insert_eq, Hv. split; eauto.
  - by rewrite lookup_insert_ne.
Qed.

Lemma apply_field_keeps field data k v :
  data !! k = Some v →
  (∀ objValue, v ≠ CObject objValue) →
  apply_field field data !! k = Some v.
Proof.
  intros Hk Hv. rewrite apply_field_unfold.
  pose proof (with_default_keeps field data k v Hk) as Hk'.
  destruct (bool_decide (FieldType field = "object") && _); [|done].
  destruct (with_default field data !! FieldName field)
    as [[| | | | | |objValue|]|] eqn:Hf; try done.
  rewrite lookup_insert_ne; [done|].
  intros <-. rewrite Hk' in Hf. injection Hf as ->. by destruct (Hv objValue).
Qed.

(** X27.  [ApplyDefaults] only adds: a value of the data that is not a map is in
    the result as it was, whatever the schema says about its key. *)
Theorem ApplyDefaults_keeps schema (data : option (gmap string ConfigValue)) k v :
  default ∅ data !! k = Some v →
  (∀ objValue, v ≠ CObject objValue) →
  ApplyDefaults schema data !! k = Some v.
Proof.
  unfold ApplyDefaults. generalize (default ∅ data). clear data.
  induction (Fields schema) as [|field fields IH]; intros data Hk Hv; [done|].
  cbn [foldl]. apply IH; [|done]. by apply apply_field_keeps.
Qed.

Lemma ApplyDefaults_keeps_witness :
  ApplyDefaults Samples.docker_schema (Some Samples.docker_config) !! "port"
  = Some (CString "8080").
Proof. apply ApplyDefaults_keeps; [reflexivity | done]. Defined.

(** X28.  The keys of the result of [ApplyDefaults] are the keys of the data and
    the names of the fields that have a default other than nil. *)
Theorem ApplyDefaults_keys schema (data : option (gmap string ConfigValue)) k :
  is_Some (ApplyDefaults schema data !! k)
  ↔ is_Some (default ∅ data !! k)
    ∨ ∃ field, field ∈ Fields schema ∧ FieldName field = k ∧ Default field ≠ CNil.
Proof.
  unfold ApplyDefaults. generalize (default ∅ data). clear data.
  induction (Fields schema) as [|field fields IH]; intros data; cbn [foldl].
  - split; [by left|]. intros [?|(field & Hin & _)]; [done | inversion Hin].
  - rewrite IH, apply_field_keys. split.
    + intros [[?|[-> Hd]]|(f & Hin & Hf)].
      * by left.
      * right. exists field. split; [left | done].
      * right. exists f. split; [by right | done].
    + intros [?|(f & Hin & <- & Hd)].
      * left. by left.
      * apply elem_of_cons in Hin as [->|Hin].
        -- left. by right.
        -- right. by exists f.
Qed.

Lemma ApplyDefaults_keys_witness :
  is_Some (ApplyDefaults Samples.docker_schema None !! "compose_file")
  ∧ ¬ is_Some (ApplyDefaults Samples.docker_schema None !! "port").
Proof.
  split.
  - apply ApplyDefaults_keys. right.
    exists (mkFieldSchema "compose_file" "string" "compose file" false
              (CString "docker-compose.yml") EmptyString []).
    split; [left | done].
  - intros [Hdata|(field & Hin & Hname & Hd)]%ApplyDefaults_keys.
    + simpl in Hdata. rewrite lookup_empty in Hdata. by destruct Hdata.
    + unfold Samples.docker_schema in Hin. cbn [Fields] in Hin.
      repeat (apply elem_of_cons in Hin as [->|Hin]); try done.
      inversion Hin.
Defined.

End configuration.
